(** * A ledger node: blocks, proof of work, chain validation and consensus

    Shallow embedding of [src/final.ts] (classes [Transaction], [Block],
    [GenesisBlock], [Wallet] and [Blockchain]) and the properties of the
    ledger engine that its specification states.

    The web server at the end of the file, the registry of nodes and the
    libraries the program imports are outside the embedding, except for
    what the ledger needs of them: [js-sha256] and [JSON.stringify] are
    modelled in full, [bignumber.js] and [deep-equal] on the values the
    program hands them, and the RSA primitive of [node-rsa] is a parameter.

    Conventions of the embedding:
    - a JavaScript [number] that holds an integer (amounts, as the
      specification has them, nonces, block numbers, indices) is a [Z];
      sums of amounts are exact, as they are in the program while they
      stay within the safe integers, and the properties that state the
      value of such a sum assume that range ([safe_amounts]);
    - a JavaScript string is a [string], read as the UTF-8 bytes that
      [js-sha256] hashes;
    - a property that may be [undefined] or [null] is an [option];
    - code that may throw returns a [result]; the unbounded mining loop
      takes fuel and returns [None] when the fuel runs out. *)

From Stdlib Require Import ZArith List String Ascii Bool Lia.
From Stdlib Require Import DecimalString.
Import ListNotations.
Local Open Scope string_scope.
Local Open Scope list_scope.
Local Open Scope Z_scope.

Infix "+++" := String.append (right associativity, at level 60).

Set Implicit Arguments.
Set Warnings "-register-all".

(* ================================================================== *)
(** ** Exceptions *)

Inductive result (A : Type) : Type :=
| Ok (a : A)
| Throw (e : string).
Arguments Ok {A} a.
Arguments Throw {A} e.

Definition bind {A B : Type} (r : result A) (k : A -> result B) : result B :=
  match r with
  | Ok a => k a
  | Throw e => Throw e
  end.

Notation "x <- r ;; k" := (bind r (fun x => k))
  (at level 61, r at next level, right associativity).

(** [try { body } catch { handler }] for a body that yields a value. *)
Definition try_catch {A : Type} (body : result A) (handler : string -> A) : A :=
  match body with
  | Ok a => a
  | Throw e => handler e
  end.

(* ================================================================== *)
(** ** SHA-256 (the [sha256] of [js-sha256], FIPS 180-4) *)

Module SHA256.

Definition mask32 : Z := 2 ^ 32 - 1.
Definition add32 (x y : Z) : Z := Z.land (x + y) mask32.
Definition rotr (n x : Z) : Z :=
  Z.lor (Z.shiftr x n) (Z.land (Z.shiftl x (32 - n)) mask32).
Definition not32 (x : Z) : Z := Z.lxor x mask32.

Definition Ch (x y z : Z) : Z := Z.lxor (Z.land x y) (Z.land (not32 x) z).
Definition Maj (x y z : Z) : Z :=
  Z.lxor (Z.lxor (Z.land x y) (Z.land x z)) (Z.land y z).
Definition bigSigma0 (x : Z) : Z :=
  Z.lxor (Z.lxor (rotr 2 x) (rotr 13 x)) (rotr 22 x).
Definition bigSigma1 (x : Z) : Z :=
  Z.lxor (Z.lxor (rotr 6 x) (rotr 11 x)) (rotr 25 x).
Definition smallSigma0 (x : Z) : Z :=
  Z.lxor (Z.lxor (rotr 7 x) (rotr 18 x)) (Z.shiftr x 3).
Definition smallSigma1 (x : Z) : Z :=
  Z.lxor (Z.lxor (rotr 17 x) (rotr 19 x)) (Z.shiftr x 10).

(** The round constants are the first 32 bits of the fractional parts of
    the cube roots of the first 64 primes, the initial state those of the
    square roots of the first 8. *)
Definition primes64 : list Z :=
  [2; 3; 5; 7; 11; 13; 17; 19; 23; 29; 31; 37; 41; 43; 47; 53;
   59; 61; 67; 71; 73; 79; 83; 89; 97; 101; 103; 107; 109; 113; 127; 131;
   137; 139; 149; 151; 157; 163; 167; 173; 179; 181; 191; 193; 197; 199;
   211; 223; 227; 229; 233; 239; 241; 251; 257; 263; 269; 271; 277; 281;
   283; 293; 307; 311].

(** Largest [r] below [2^bits] with [r^3 <= n], one bit at a time. *)
Fixpoint cbrt_bits (bits : nat) (n acc : Z) : Z :=
  match bits with
  | O => acc
  | S b =>
      let cand := acc + 2 ^ Z.of_nat b in
      cbrt_bits b n (if cand * cand * cand <=? n then cand else acc)
  end.

Definition frac_cbrt32 (p : Z) : Z := Z.land (cbrt_bits 40 (p * 2 ^ 96) 0) mask32.
Definition frac_sqrt32 (p : Z) : Z := Z.land (Z.sqrt (p * 2 ^ 64)) mask32.

Definition K : list Z := Eval vm_compute in map frac_cbrt32 primes64.
Definition H0 : list Z := Eval vm_compute in map frac_sqrt32 (firstn 8 primes64).

(** Padding: the byte 0x80, zeros up to 56 modulo 64, then the length in
    bits as a 64-bit big-endian integer. *)
Fixpoint be_bytes (n : nat) (x : Z) : list Z :=
  match n with
  | O => []
  | S m => Z.land (Z.shiftr x (8 * Z.of_nat m)) 255 :: be_bytes m x
  end.

Definition pad (msg : list Z) : list Z :=
  let l := Z.of_nat (List.length msg) in
  let k := (55 - l) mod 64 in
  msg ++ 128 :: repeat 0 (Z.to_nat k) ++ be_bytes 8 (8 * l).

Definition word_of_bytes (b3 b2 b1 b0 : Z) : Z :=
  Z.lor (Z.lor (Z.shiftl b3 24) (Z.shiftl b2 16)) (Z.lor (Z.shiftl b1 8) b0).

Fixpoint words (bs : list Z) : list Z :=
  match bs with
  | b3 :: b2 :: b1 :: b0 :: rest => word_of_bytes b3 b2 b1 b0 :: words rest
  | _ => []
  end.

(** The message schedule, kept newest first: [rev_w] holds
    W(t-1), W(t-2), ... *)
Fixpoint schedule (n : nat) (rev_w : list Z) : list Z :=
  match n with
  | O => rev_w
  | S m =>
      let wt := add32 (add32 (smallSigma1 (nth 1 rev_w 0)) (nth 6 rev_w 0))
                      (add32 (smallSigma0 (nth 14 rev_w 0)) (nth 15 rev_w 0)) in
      schedule m (wt :: rev_w)
  end.

Record state := mkState { sa : Z; sb : Z; sc : Z; sd : Z;
                          se : Z; sf : Z; sg : Z; sh : Z }.

Definition round (s : state) (kw : Z * Z) : state :=
  let (k, w) := kw in
  let t1 := add32 (add32 (add32 (sh s) (bigSigma1 (se s)))
                         (add32 (Ch (se s) (sf s) (sg s)) k)) w in
  let t2 := add32 (bigSigma0 (sa s)) (Maj (sa s) (sb s) (sc s)) in
  mkState (add32 t1 t2) (sa s) (sb s) (sc s) (add32 (sd s) t1) (se s) (sf s) (sg s).

Definition compress (h : state) (block : list Z) : state :=
  let w := rev (schedule 48 (rev block)) in
  let s := fold_left round (combine K w) h in
  mkState (add32 (sa h) (sa s)) (add32 (sb h) (sb s))
          (add32 (sc h) (sc s)) (add32 (sd h) (sd s))
          (add32 (se h) (se s)) (add32 (sf h) (sf s))
          (add32 (sg h) (sg s)) (add32 (sh h) (sh s)).

Fixpoint blocks_fold (n : nat) (h : state) (ws : list Z) : state :=
  match n with
  | O => h
  | S m => blocks_fold m (compress h (firstn 16 ws)) (skipn 16 ws)
  end.

Definition initial : state :=
  mkState (nth 0 H0 0) (nth 1 H0 0) (nth 2 H0 0) (nth 3 H0 0)
          (nth 4 H0 0) (nth 5 H0 0) (nth 6 H0 0) (nth 7 H0 0).

Definition digest_words (msg : list Z) : list Z :=
  let ws := words (pad msg) in
  let s := blocks_fold (Nat.div (List.length ws) 16) initial ws in
  [sa s; sb s; sc s; sd s; se s; sf s; sg s; sh s].

Definition hex_char (d : Z) : ascii :=
  nth (Z.to_nat d) (list_ascii_of_string "0123456789abcdef") "0"%char.

Fixpoint hex_digits (n : nat) (x : Z) : list ascii :=
  match n with
  | O => []
  | S m => hex_char (Z.land (Z.shiftr x (4 * Z.of_nat m)) 15) :: hex_digits m x
  end.

Definition bytes_of_string (s : string) : list Z :=
  map (fun c => Z.of_N (N_of_ascii c)) (list_ascii_of_string s).

(** Lower-case hexadecimal digest of the bytes of [s]. *)
Definition hexdigest (s : string) : string :=
  string_of_list_ascii
    (flat_map (hex_digits 8) (digest_words (bytes_of_string s))).

End SHA256.

Definition sha256 (message : string) : string := SHA256.hexdigest message.

(* ================================================================== *)
(** ** JSON.stringify *)

(** The values handed to [JSON.stringify] by the [toJson] methods. *)
Inductive Json : Type :=
| JUndefined
| JNumber (n : Z)
| JString (s : string)
| JBool (b : bool)
| JArray (items : list Json)
| JObject (members : list (string * Json)).

(** An integer prints in decimal (JavaScript switches to exponent
    notation only from 1e21 on). *)
Definition string_of_Z (n : Z) : string := NilZero.string_of_int (Z.to_int n).

Definition quote_char : ascii := ascii_of_nat 34.
Definition backslash : ascii := ascii_of_nat 92.

(** QuoteJSONString, one byte at a time. *)
Definition escape_char (c : ascii) : string :=
  let n := nat_of_ascii c in
  if Nat.eqb n 34 then String backslash (String quote_char EmptyString)
  else if Nat.eqb n 92 then String backslash (String backslash EmptyString)
  else if Nat.eqb n 8 then String backslash "b"
  else if Nat.eqb n 12 then String backslash "f"
  else if Nat.eqb n 10 then String backslash "n"
  else if Nat.eqb n 13 then String backslash "r"
  else if Nat.eqb n 9 then String backslash "t"
  else if Nat.ltb n 32 then
    String backslash ("u00" +++ string_of_list_ascii (SHA256.hex_digits 2 (Z.of_nat n)))
  else String c EmptyString.

Fixpoint escape (s : string) : string :=
  match s with
  | EmptyString => EmptyString
  | String c rest => escape_char c +++ escape rest
  end.

Definition quote (s : string) : string :=
  String quote_char (escape s +++ String quote_char EmptyString).

(** A member whose value is [undefined] is left out of an object; an
    [undefined] array element prints as [null]. *)
Fixpoint stringify (j : Json) : string :=
  match j with
  | JUndefined => "null"
  | JNumber n => string_of_Z n
  | JString s => quote s
  | JBool b => if b then "true" else "false"
  | JArray items =>
      "[" +++
      (fix elements (l : list Json) : string :=
         match l with
         | [] => EmptyString
         | [x] => stringify x
         | x :: l' => stringify x +++ "," +++ elements l'
         end) items +++ "]"
  | JObject members =>
      "{" +++
      (fix props (first : bool) (l : list (string * Json)) : string :=
         match l with
         | [] => EmptyString
         | (_, JUndefined) :: l' => props first l'
         | (k, v) :: l' =>
             (if first then EmptyString else ",") +++
             quote k +++ ":" +++ stringify v +++ props false l'
         end) true members +++ "}"
  end.

Definition opt_json {A : Type} (f : A -> Json) (o : option A) : Json :=
  match o with
  | Some a => f a
  | None => JUndefined
  end.

(* ================================================================== *)
(** ** BigNumber *)

(** A [bignumber.js] value: [coefficient * 10 ^ exponent].  The library
    is not part of the program; the model covers the two spellings the
    program feeds to its constructor: a decimal numeral, possibly with a
    fraction and an exponent (the rendering of a [number]), and a
    hexadecimal integer literal with its [0x] prefix (a digest).  Any
    other string is "not a number".  The library also reads a few
    spellings that no digest has (a fraction after hexadecimal digits,
    blanks at the end, a repeated prefix); they are outside the model, and
    the statements below on wrongly encoded input are restricted to
    strings that cannot be one of them. *)
Record BigNumber : Type := mkBigNumber { coefficient : Z; exponent : Z }.

Definition is_digit (c : ascii) : bool :=
  let n := nat_of_ascii c in Nat.leb 48 n && Nat.leb n 57.

Definition hex_value (c : ascii) : option Z :=
  let n := nat_of_ascii c in
  if Nat.leb 48 n && Nat.leb n 57 then Some (Z.of_nat n - 48)
  else if Nat.leb 97 n && Nat.leb n 102 then Some (Z.of_nat n - 87)
  else if Nat.leb 65 n && Nat.leb n 70 then Some (Z.of_nat n - 55)
  else None.

Fixpoint span_digits (l : list ascii) : list ascii * list ascii :=
  match l with
  | c :: l' =>
      if is_digit c then let (ds, rest) := span_digits l' in (c :: ds, rest)
      else ([], l)
  | [] => ([], [])
  end.

Definition digits_value (ds : list ascii) : Z :=
  fold_left (fun acc c => 10 * acc + (Z.of_nat (nat_of_ascii c) - 48)) ds 0.

(** Value of a non-empty run of hexadecimal digits, [acc] being the value
    of the digits already read. *)
Fixpoint hex_digits_value (l : list ascii) (acc : Z) : option Z :=
  match l with
  | [] => Some acc
  | c :: l' =>
      match hex_value c with
      | Some d => hex_digits_value l' (16 * acc + d)
      | None => None
      end
  end.

Definition is_char (n : nat) (c : ascii) : bool := Nat.eqb (nat_of_ascii c) n.

Definition strip_minus (l : list ascii) : Z * list ascii :=
  match l with
  | c :: l' => if is_char 45 c then (-1, l') else (1, l)
  | [] => (1, l)
  end.

(** [e], an optional sign and at least one digit, up to the end. *)
Definition parse_exponent (l : list ascii) : option Z :=
  match l with
  | [] => Some 0
  | c :: l' =>
      if is_char 101 c || is_char 69 c then
        let (sign, l2) :=
          match l' with
          | d :: l3 => if is_char 43 d then (1, l3)
                       else if is_char 45 d then (-1, l3) else (1, l')
          | [] => (1, l')
          end in
        match span_digits l2 with
        | ((_ :: _) as ds, []) => Some (sign * digits_value ds)
        | _ => None
        end
      else None
  end.

(** The decimal grammar of the constructor: an optional minus sign;
    digits with an optional point and further digits, or a point and at
    least one digit; an optional exponent. *)
Definition parse_decimal (s : string) : option BigNumber :=
  let (sign, l) := strip_minus (list_ascii_of_string s) in
  let (int_ds, l1) := span_digits l in
  let (frac_ds, l2) :=
    match l1 with
    | c :: l' => if is_char 46 c then span_digits l' else ([], l1)
    | [] => ([], l1)
    end in
  match int_ds, frac_ds with
  | [], [] => None
  | _, _ =>
      match parse_exponent l2 with
      | Some e =>
          Some (mkBigNumber (sign * digits_value (int_ds ++ frac_ds))
                            (e - Z.of_nat (List.length frac_ds)))
      | None => None
      end
  end.

(** A hexadecimal integer literal: [-?0x] and at least one digit.  The
    prefix letter is accepted in either case, as in the library. *)
Definition parse_hex (s : string) : option BigNumber :=
  let (sign, l) := strip_minus (list_ascii_of_string s) in
  match l with
  | z :: x :: ((_ :: _) as ds) =>
      if is_char 48 z && (is_char 120 x || is_char 88 x) then
        match hex_digits_value ds 0 with
        | Some v => Some (mkBigNumber (sign * v) 0)
        | None => None
        end
      else None
  | _ => None
  end.

(** [new BigNumber(value)] for a string.  Where the library is configured
    to return NaN instead of raising, every comparison with NaN is false,
    which is what the caller's handler answers too. *)
Definition BigNumber_new (value : string) : result BigNumber :=
  match parse_decimal value with
  | Some x => Ok x
  | None =>
      match parse_hex value with
      | Some x => Ok x
      | None => Throw "not a number"
      end
  end.

(** The exact mathematical comparison of two values, both brought to the
    smaller of the two exponents. *)
Definition lessThanOrEqualTo (x y : BigNumber) : bool :=
  let m := Z.min (exponent x) (exponent y) in
  coefficient x * 10 ^ (exponent x - m) <=? coefficient y * 10 ^ (exponent y - m).

(* ================================================================== *)
(** ** Wallets, transactions *)

Definition Address : Type := string.

(** A [Buffer] is the string of its bytes. *)
Definition Buffer : Type := string.

Record Wallet : Type := mkWallet { privateKey : string; address : Address }.

Record TransactionOutput : Type :=
  mkTransactionOutput { recipientAddress : string; amount : Z }.

(** A [TransactionInput] holds the transaction it spends from, not its
    hash: the hash only appears in [toJson]. *)
Inductive Transaction : Type :=
| mkTransaction (wallet : option Wallet) (inputs : list TransactionInput)
                (outputs : list TransactionOutput) (signature : Buffer)
with TransactionInput : Type :=
| mkTransactionInput (transaction : Transaction) (outputIdx : Z).

Definition wallet (t : Transaction) : option Wallet :=
  match t with mkTransaction w _ _ _ => w end.
Definition inputs (t : Transaction) : list TransactionInput :=
  match t with mkTransaction _ i _ _ => i end.
Definition outputs (t : Transaction) : list TransactionOutput :=
  match t with mkTransaction _ _ o _ => o end.
Definition signature (t : Transaction) : Buffer :=
  match t with mkTransaction _ _ _ s => s end.
Definition transaction (i : TransactionInput) : Transaction :=
  match i with mkTransactionInput t _ => t end.
Definition outputIdx (i : TransactionInput) : Z :=
  match i with mkTransactionInput _ k => k end.

(** [array[index]]: [undefined] outside the array. *)
Definition index {A : Type} (l : list A) (i : Z) : option A :=
  if i <? 0 then None else nth_error l (Z.to_nat i).

(** The getter [parentOutput]. *)
Definition parentOutput (txin : TransactionInput) : option TransactionOutput :=
  index (outputs (transaction txin)) (outputIdx txin).

Definition TransactionOutput_toJson (o : TransactionOutput) : Json :=
  JObject [("recipientAddress", JString (recipientAddress o));
           ("amount", JNumber (amount o))].

(** [Transaction.hash]: the digest of the transaction's JSON, in which an
    input appears as the hash of the transaction it spends from. *)
Fixpoint Transaction_hash (t : Transaction) : string :=
  match t with
  | mkTransaction _ ins outs _ =>
      sha256 (stringify (JObject
        [("inputs",
          JArray (map (fun i =>
                         match i with
                         | mkTransactionInput t' k =>
                             JObject [("transaction", JString (Transaction_hash t'));
                                      ("outputIdx", JNumber k)]
                         end) ins));
         ("outputs", JArray (map TransactionOutput_toJson outs))]))
  end.

Definition TransactionInput_toJson (i : TransactionInput) : Json :=
  JObject [("transaction", JString (Transaction_hash (transaction i)));
           ("outputIdx", JNumber (outputIdx i))].

Definition Transaction_toJson (t : Transaction) : Json :=
  JObject [("inputs", JArray (map TransactionInput_toJson (inputs t)));
           ("outputs", JArray (map TransactionOutput_toJson (outputs t)))].

Lemma Transaction_hash_eq (t : Transaction) :
  Transaction_hash t = sha256 (stringify (Transaction_toJson t)).
Proof.
  destruct t as [w ins outs s]. unfold Transaction_toJson.
  cbn [Transaction_hash inputs outputs].
  replace (map TransactionInput_toJson ins)
    with (map (fun i =>
                 match i with
                 | mkTransactionInput t' k =>
                     JObject [("transaction", JString (Transaction_hash t'));
                              ("outputIdx", JNumber k)]
                 end) ins); [reflexivity|].
  apply map_ext. intros [t' k]. reflexivity.
Qed.

(** The message a wallet signs and a verifier checks. *)
Definition Transaction_message (t : Transaction) : string :=
  stringify (Transaction_toJson t).

Definition GenesisTransaction (recipient : string) (amt : Z) : Transaction :=
  mkTransaction None [] [mkTransactionOutput recipient amt] "genesis".

(** Reading a property of [undefined] raises a TypeError. *)
Definition defined {A : Type} (o : option A) : result A :=
  match o with
  | Some a => Ok a
  | None => Throw "TypeError"
  end.

(** [Array.prototype.every] with a callback that may throw: it stops at
    the first element the callback rejects. *)
Fixpoint every {A : Type} (f : A -> result bool) (l : list A) : result bool :=
  match l with
  | [] => Ok true
  | x :: l' => b <- f x ;; if b then every f l' else Ok false
  end.

(** [Array.prototype.reduce] and the accumulating [forEach] loops, with
    a step that may throw. *)
Fixpoint reduce {A B : Type} (f : B -> A -> result B) (l : list A) (init : B)
  : result B :=
  match l with
  | [] => Ok init
  | x :: l' => acc <- f init x ;; reduce f l' acc
  end.

(* ================================================================== *)
(** ** Blocks *)

Definition DIFFICULTY : Z := 4.
Definition TARGET : Z := 2 ^ (256 - DIFFICULTY).
Definition MINING_REWARD : Z := 25.

(** [Block.TARGET] is a [number]: the double 2^252, which is exact.  Its
    [toString()] is the shortest decimal that reads back as that double
    ([TARGET_toString_shortest] below). *)
Definition TARGET_toString : string := "7.237005577332262e+75".

(** [isGenesisBlock] records the class of the object ([GenesisBlock] or
    [Block]), which selects the [toJson] method.  Every block the program
    constructs has [blockDifficulty = Block.TARGET]: the field has an
    initialiser and is never assigned. *)
Inductive Block : Type := mkBlock {
  transactions : list Transaction;
  ancestor : option Block;
  minerAddress : string;
  nonce : option Z;
  hash : option string;
  blockNumber : Z;
  validTransaction : bool;
  isGenesisBlock : bool
}.

Definition set_nonce (b : Block) (n : Z) : Block :=
  mkBlock (transactions b) (ancestor b) (minerAddress b) (Some n) (hash b)
          (blockNumber b) (validTransaction b) (isGenesisBlock b).

Definition set_hash (b : Block) (h : string) : Block :=
  mkBlock (transactions b) (ancestor b) (minerAddress b) (nonce b) (Some h)
          (blockNumber b) (validTransaction b) (isGenesisBlock b).

(** [toJson], overridden in [GenesisBlock].  In a [Block] it reads
    [this.ancestor.hash], which throws when there is no ancestor. *)
Definition Block_toJson (b : Block) : result Json :=
  if isGenesisBlock b then
    Ok (JObject [("transactions", JArray []);
                 ("ancestor", JString EmptyString);
                 ("genesisBlock", JBool true);
                 ("nonce", opt_json JNumber (nonce b));
                 ("hash", opt_json JString (hash b));
                 ("blockNumber", JNumber (blockNumber b))])
  else
    a <- defined (ancestor b) ;;
    Ok (JObject [("nonce", opt_json JNumber (nonce b));
                 ("hash", opt_json JString (hash b));
                 ("blockNumber", JNumber (blockNumber b));
                 ("ancestor", opt_json JString (hash a));
                 ("transactions", JArray (map Transaction_toJson (transactions b)));
                 ("genesisBlock", JBool false)]).

(** The method [sha256()] of a block. *)
Definition Block_sha256 (b : Block) : result string :=
  j <- Block_toJson b ;; Ok (sha256 (stringify j)).

Fixpoint startsWith (s prefix : string) : bool :=
  match prefix with
  | EmptyString => true
  | String p prefix' =>
      match s with
      | EmptyString => false
      | String c s' => Ascii.eqb c p && startsWith s' prefix'
      end
  end.

(** The body of the [try] in [isPoWValid].  [lessThanOrEqualTo] is given
    the string [this.blockDifficulty.toString()] and builds a BigNumber
    from it. *)
Definition isPoWValid_try (pow : string) : result bool :=
  let pow := if negb (startsWith pow "0x") then "0x" +++ pow else pow in
  x <- BigNumber_new pow ;;
  y <- BigNumber_new TARGET_toString ;;
  Ok (lessThanOrEqualTo x y).

Definition isPoWValid (pow : string) : bool :=
  try_catch (isPoWValid_try pow) (fun _ => false).

(** [mine]: [while (true)] becomes a loop on fuel; [None] is "still
    searching". *)
Fixpoint mine_loop (fuel : nat) (b : Block) (n : Z) : option (result Block) :=
  match fuel with
  | O => None
  | S fuel' =>
      let b' := set_nonce b n in
      match Block_sha256 b' with
      | Throw e => Some (Throw e)
      | Ok pow =>
          if isPoWValid pow then Some (Ok (set_hash b' pow))
          else mine_loop fuel' b (n + 1)
      end
  end.

Definition mine (fuel : nat) (b : Block) : option (result Block) :=
  mine_loop fuel b 0.

(* ================================================================== *)
(** ** deepEqual *)

(** [deep-equal] compares the own properties of two objects recursively
    and does not look at their class: on blocks it is equality of all the
    fields but [isGenesisBlock]. *)
Section ListEqb.
Variable A : Type.
Variable eqb : A -> A -> bool.

Fixpoint list_eqb (l1 l2 : list A) : bool :=
  match l1, l2 with
  | [], [] => true
  | x :: l1', y :: l2' => eqb x y && list_eqb l1' l2'
  | _, _ => false
  end.

Definition option_eqb (o1 o2 : option A) : bool :=
  match o1, o2 with
  | Some x, Some y => eqb x y
  | None, None => true
  | _, _ => false
  end.
End ListEqb.

Definition Wallet_eqb (w1 w2 : Wallet) : bool :=
  String.eqb (privateKey w1) (privateKey w2) && String.eqb (address w1) (address w2).

Definition TransactionOutput_eqb (o1 o2 : TransactionOutput) : bool :=
  String.eqb (recipientAddress o1) (recipientAddress o2) && (amount o1 =? amount o2).

Fixpoint Transaction_eqb (a b : Transaction) {struct a} : bool :=
  match a, b with
  | mkTransaction w1 i1 o1 s1, mkTransaction w2 i2 o2 s2 =>
      option_eqb Wallet_eqb w1 w2 &&
      (fix ins (l1 l2 : list TransactionInput) {struct l1} : bool :=
         match l1, l2 with
         | [], [] => true
         | mkTransactionInput t1 k1 :: l1', mkTransactionInput t2 k2 :: l2' =>
             Transaction_eqb t1 t2 && (k1 =? k2) && ins l1' l2'
         | _, _ => false
         end) i1 i2 &&
      list_eqb TransactionOutput_eqb o1 o2 &&
      String.eqb s1 s2
  end.

Fixpoint deepEqual (a b : Block) {struct a} : bool :=
  match a, b with
  | mkBlock txs1 anc1 miner1 nonce1 hash1 num1 valid1 _,
    mkBlock txs2 anc2 miner2 nonce2 hash2 num2 valid2 _ =>
      list_eqb Transaction_eqb txs1 txs2 &&
      match anc1, anc2 with
      | Some x, Some y => deepEqual x y
      | None, None => true
      | _, _ => false
      end &&
      String.eqb miner1 miner2 &&
      option_eqb Z.eqb nonce1 nonce2 &&
      option_eqb String.eqb hash1 hash2 &&
      (num1 =? num2) &&
      Bool.eqb valid1 valid2
  end.

(* ================================================================== *)
(** ** The ledger *)

(** What reading and deserialising a file of the store gives. *)
Inductive File (A : Type) : Type :=
| Missing                     (* readFileSync fails with code ENOENT *)
| Unreadable                  (* any other failure of reading or parsing *)
| Stored (content : A).
Arguments Missing {A}.
Arguments Unreadable {A}.
Arguments Stored {A} content.

(** The state of a [Blockchain] object together with its two files. *)
Record Blockchain : Type := mkBlockchain {
  blocks : list Block;
  transactionPool : list Transaction;
  chainFile : File (list Block);
  txpoolFile : File (list Transaction)
}.

Definition SATOSHI_NAKAMOTO : string := "123456".

Definition len {A : Type} (l : list A) : Z := Z.of_nat (List.length l).

Section Signing.

(** The RSA primitive of [node-rsa], by which [Wallet.sign] and
    [verifySignature] are defined: signing with a private key, and
    verifying against an address (the public key).  Verifying imports the
    address as a key first, which throws when the address is not the
    hexadecimal DER encoding of a public key: the verifier answers or
    raises. *)
Variable rsa_sign : string -> string -> Buffer.
Variable rsa_verify : string -> string -> Buffer -> result bool.

Definition Wallet_sign (w : Wallet) (message : string) : Buffer :=
  rsa_sign (privateKey w) message.

Definition verifySignature (walletAddress message : string) (sig : Buffer)
  : result bool :=
  rsa_verify walletAddress message sig.

(** [new Transaction(wallet, inputs, outputs)] with a wallet. *)
Definition Transaction_new (w : Wallet) (ins : list TransactionInput)
           (outs : list TransactionOutput) : Transaction :=
  mkTransaction (Some w) ins outs
    (Wallet_sign w (Transaction_message (mkTransaction (Some w) ins outs EmptyString))).

(** [Transaction.verify]. *)
Definition Transaction_verify (t : Transaction) : result bool :=
  sameWallet <-
    every (fun txin =>
             o <- defined (parentOutput txin) ;;
             i0 <- defined (index (inputs t) 0) ;;
             o0 <- defined (parentOutput i0) ;;
             Ok (String.eqb (recipientAddress o) (recipientAddress o0)))
          (inputs t) ;;
  w <- defined (wallet t) ;;
  correctSignature <-
    verifySignature (address w) (Transaction_message t) (signature t) ;;
  totalIn <-
    reduce (fun sum txin => o <- defined (parentOutput txin) ;; Ok (amount o + sum))
           (inputs t) 0 ;;
  let totalOut := fold_left (fun sum txout => amount txout + sum) (outputs t) 0 in
  let funds := totalOut <=? totalIn in
  Ok (sameWallet && correctSignature && funds).

(** The constructor of [Block] ([genesis] tells whether it runs for a
    [GenesisBlock]).  The fields [nonce] and [hash] only exist once
    [mine] has run. *)
Definition Block_new (fuel : nat) (txs : list Transaction) (anc : option Block)
           (miner : string) (genesis : bool) : option (result Block) :=
  let number :=
    match anc with
    | Some a => blockNumber a + 1
    | None => 0
    end in
  match every Transaction_verify txs with
  | Throw e => Some (Throw e)
  | Ok valid =>
      let this := mkBlock (GenesisTransaction miner MINING_REWARD :: txs) anc miner
                          None None number valid genesis in
      if valid then mine fuel this else Some (Ok this)
  end.

Definition GenesisBlock_new (fuel : nat) (miner : string) : option (result Block) :=
  Block_new fuel [] None miner true.

End Signing.

(** [Blockchain.GENESIS_BLOCK], built once when the class is loaded.  It
    holds no transaction to verify, so the verifier plays no part. *)
Definition GENESIS_BLOCK :=
  Eval vm_compute in
    match GenesisBlock_new (fun _ _ _ => Ok false) 64 SATOSHI_NAKAMOTO with
    | Some (Ok b) => b
    | _ => mkBlock [] None EmptyString None None 0 false true
    end.

(** The static [Blockchain.verify]: the loop, which [verify_from] enters
    at index [i] with [previous = blocks[i - 1]] and [rest] the blocks
    from index [i] on; the body of the [try]; and the function itself,
    whose handler answers [false]. *)
Fixpoint verify_from (i : Z) (previous : Block) (rest : list Block) : result unit :=
  match rest with
  | [] => Ok tt
  | current :: rest' =>
      if negb (blockNumber current =? i) then Throw "Invalid block number!"
      else
        a <- defined (ancestor current) ;;
        h <- Block_sha256 previous ;;
        if negb (option_eqb String.eqb (hash a) (Some h))
        then Throw "Invalid previous block hash!"
        else
          pow <- Block_sha256 current ;;
          if negb (isPoWValid pow)
          then Throw "Invalid previous block hash's difficutly!"
          else verify_from (i + 1) current rest'
  end.

Definition verify_try (chain : list Block) : result bool :=
  match chain with
  | [] => Throw "Blockchain can't be empty!"
  | first :: rest =>
      if negb (deepEqual first GENESIS_BLOCK) then Throw "Invalid first block!"
      else _ <- verify_from 1 first rest ;; Ok true
  end.

Definition verify (chain : list Block) : bool :=
  try_catch (verify_try chain) (fun _ => false).

(** [save], [addToTransactionPool] and [clearTransactionPool]. *)
Definition save (bc : Blockchain) : Blockchain :=
  mkBlockchain (blocks bc) (transactionPool bc) (Stored (blocks bc)) (txpoolFile bc).

Definition addToTransactionPool (bc : Blockchain) (tx : Transaction) : Blockchain :=
  let pool := transactionPool bc ++ [tx] in
  mkBlockchain (blocks bc) pool (chainFile bc) (Stored pool).

Definition clearTransactionPool (bc : Blockchain) : Blockchain :=
  mkBlockchain (blocks bc) [] (chainFile bc) (Stored []).

(** The constructor: [initTransactionPool], then [load], whose [finally]
    runs the private [verify] whatever happened before.  When the file
    cannot be read for another reason than its absence, the handler
    rethrows, [this.blocks] is still undefined and the [throw] of the
    private [verify] replaces the pending exception. *)
Definition initTransactionPool (f : File (list Transaction)) : list Transaction :=
  match f with
  | Stored txpool => txpool
  | _ => []
  end.

Definition load (f : File (list Block)) : result (list Block) :=
  match f with
  | Stored chain =>
      if verify chain then Ok chain else Throw "Invalid blockchain!"
  | Missing =>
      let chain := [GENESIS_BLOCK] in
      if verify chain then Ok chain else Throw "Invalid blockchain!"
  | Unreadable => Throw "Invalid blockchain!"
  end.

Definition Blockchain_new (chain_file : File (list Block))
           (txpool_file : File (list Transaction)) : result Blockchain :=
  let pool := initTransactionPool txpool_file in
  chain <- load chain_file ;;
  Ok (mkBlockchain chain pool chain_file txpool_file).

(** [consensus]: the scan of the candidates, then the decision. *)
Fixpoint consensus_scan (blockchains : list (list Block)) (i maxLength best : Z)
  : Z * Z :=
  match blockchains with
  | [] => (maxLength, best)
  | candidate :: rest =>
      if len candidate <=? maxLength then consensus_scan rest (i + 1) maxLength best
      else if verify candidate then consensus_scan rest (i + 1) (len candidate) i
      else consensus_scan rest (i + 1) maxLength best
  end.

Definition consensus (bc : Blockchain) (blockchains : list (list Block))
  : bool * Blockchain :=
  let (maxLength, bestCandidateIndex) := consensus_scan blockchains 0 0 (-1) in
  if negb (bestCandidateIndex =? -1) &&
     ((maxLength >? len (blocks bc)) || negb (verify (blocks bc)))
  then
    (true, save (mkBlockchain (nth (Z.to_nat bestCandidateIndex) blockchains [])
                              (transactionPool bc) (chainFile bc) (txpoolFile bc)))
  else (false, bc).

(** [computeBalance]. *)
Definition computeBalance (bc : Blockchain) (walletAddress : string) : result Z :=
  let all := fold_left (fun all curr => all ++ transactions curr) (blocks bc) [] in
  reduce (fun balance tx =>
            balance' <-
              reduce (fun bal txin =>
                        o <- defined (parentOutput txin) ;;
                        Ok (if String.eqb (recipientAddress o) walletAddress
                            then bal - amount o else bal))
                     (inputs tx) balance ;;
            Ok (fold_left (fun bal txout =>
                             if String.eqb (recipientAddress txout) walletAddress
                             then bal + amount txout else bal)
                          (outputs tx) balance'))
         all 0.

(** [Array.prototype.findIndex]. *)
Fixpoint findIndex_from {A : Type} (f : A -> bool) (l : list A) (i : Z) : Z :=
  match l with
  | [] => -1
  | x :: l' => if f x then i else findIndex_from f l' (i + 1)
  end.

Definition findIndex {A : Type} (f : A -> bool) (l : list A) : Z :=
  findIndex_from f l 0.

(** The inputs [submitTransaction] gathers, in the order it pushes them. *)
Definition collectInputs (chain : list Block) (sender : Address)
  : list TransactionInput :=
  flat_map (fun block =>
    flat_map (fun tx =>
      let idx := findIndex (fun txout => String.eqb (recipientAddress txout) sender)
                           (outputs tx) in
      if idx >? -1 then [mkTransactionInput tx idx] else [])
      (transactions block))
    chain.

Definition getLastBlock (bc : Blockchain) : option Block :=
  index (blocks bc) (len (blocks bc) - 1).

Section Ledger.

Variable rsa_sign : string -> string -> Buffer.
Variable rsa_verify : string -> string -> Buffer -> result bool.

(** A method that may throw part way returns its outcome together with
    the state it leaves behind. *)
Definition submitTransaction (bc : Blockchain) (senderWallet : Wallet)
           (recipient : Address) (value : Z) : result unit * Blockchain :=
  let txinputs := collectInputs (blocks bc) (address senderWallet) in
  match computeBalance bc (address senderWallet) with
  | Throw e => (Throw e, bc)
  | Ok senderBalance =>
      let txOutputs :=
        [mkTransactionOutput recipient value;
         mkTransactionOutput (address senderWallet) (Z.abs (senderBalance - value))] in
      (Ok tt, addToTransactionPool bc
                (Transaction_new rsa_sign senderWallet txinputs txOutputs))
  end.

(** [createBlock]: the block returned, or the exception, and the state
    afterwards. *)
Definition createBlock (fuel : nat) (bc : Blockchain) (miner : string)
  : option (result Block * Blockchain) :=
  match Block_new rsa_verify fuel (transactionPool bc) (getLastBlock bc) miner false with
  | None => None
  | Some (Throw e) => Some (Throw e, bc)
  | Some (Ok newBlock) =>
      if negb (validTransaction newBlock) then Some (Throw "Invalid transaction", bc)
      else
        let pushed := mkBlockchain (blocks bc ++ [newBlock]) (transactionPool bc)
                                   (chainFile bc) (txpoolFile bc) in
        Some (Ok newBlock, save (clearTransactionPool pushed))
  end.

End Ledger.

(** A stand-in for the RSA primitive, in which an address is a key when
    it is a non-empty string of hexadecimal digits, the private key of an
    address is the address behind a fixed prefix, and verifying against
    an address that is not a key raises; it only serves to run the ledger
    on concrete transactions. *)
Module ToyRSA.
Definition key_of (a : Address) : string := "key of " +++ a.
Definition sign (key message : string) : Buffer := key +++ ":" +++ message.
Definition is_key (a : Address) : bool :=
  match list_ascii_of_string a with
  | [] => false
  | l => forallb (fun c => match hex_value c with Some _ => true | None => false end) l
  end.
Definition verify (address message : string) (sig : Buffer) : result bool :=
  if is_key address then Ok (String.eqb sig (key_of address +++ ":" +++ message))
  else Throw "InvalidAsn1Error".
Definition wallet_of (a : Address) : Wallet := mkWallet (key_of a) a.

Lemma verify_sign (a : Address) :
  is_key a = true ->
  forall message, verify a message (sign (key_of a) message) = Ok true.
Proof.
  intros Hk message. unfold verify, sign. rewrite Hk. now rewrite String.eqb_refl.
Qed.
End ToyRSA.

(* ================================================================== *)
(** * Properties *)

Unset Implicit Arguments.

(** ** The rendering of the target *)

(** A real number has the Number value 2^252 when it rounds to it: the
    neighbouring doubles are 2^252 - 2^199 and 2^252 + 2^200 and the
    significand of 2^252 is even, so both half-way points are included. *)
Definition reads_back_as_TARGET (r : Z) : Prop :=
  TARGET - 2 ^ 198 <= r <= TARGET + 2 ^ 199.

(** [Number.prototype.toString] picks the decimal [s * 10^(n-k)] with the
    fewest digits [k] that reads back as the number and, among those, the
    closest one.  Every value that reads back as 2^252 lies between 10^75
    and 10^76, so [n = 76]: the digits are 7237005577332262 ([k = 16]),
    no decimal with 15 digits or fewer reads back (it would be a multiple
    of 10^61), and the other 16-digit candidate is farther away. *)
Lemma TARGET_toString_shortest :
  10 ^ 15 <= 7237005577332262 < 10 ^ 16 /\
  reads_back_as_TARGET (7237005577332262 * 10 ^ 60) /\
  (forall r, reads_back_as_TARGET r -> 10 ^ 75 <= r < 10 ^ 76) /\
  (forall m, ~ reads_back_as_TARGET (m * 10 ^ 61)) /\
  (forall s, reads_back_as_TARGET (s * 10 ^ 60) ->
             Z.abs (7237005577332262 * 10 ^ 60 - TARGET) <= Z.abs (s * 10 ^ 60 - TARGET)).
Proof.
  unfold reads_back_as_TARGET, TARGET, DIFFICULTY.
  repeat split; lia.
Qed.

(** The bound the comparison really uses. *)
Definition LIMIT : Z := 7237005577332262 * 10 ^ 60.

Lemma TARGET_toString_value :
  BigNumber_new TARGET_toString = Ok (mkBigNumber 7237005577332262 60).
Proof. reflexivity. Qed.

Lemma LIMIT_below_TARGET : LIMIT < TARGET.
Proof. unfold LIMIT, TARGET, DIFFICULTY. lia. Qed.


(* ================================================================== *)
(** ** The proof-of-work predicate *)

(** The digits of [pow] once an optional [0x] in front is set aside. *)
Definition hash_digits (pow : string) : list ascii :=
  match list_ascii_of_string pow with
  | z :: x :: rest => if is_char 48 z && is_char 120 x then rest else z :: x :: rest
  | l => l
  end.

Definition is_hex_digit (c : ascii) : bool :=
  match hex_value c with
  | Some _ => true
  | None => false
  end.

(** The number a run of hexadecimal digits denotes, most significant
    digit first. *)
Definition hex_number (ds : list ascii) : Z :=
  fold_left (fun acc c => 16 * acc + match hex_value c with Some d => d | None => 0 end)
            ds 0.

Lemma is_char_eq (n : nat) (c : ascii) : is_char n c = true -> c = ascii_of_nat n.
Proof.
  unfold is_char. intros H. apply Nat.eqb_eq in H. subst n.
  symmetry. apply ascii_nat_embedding.
Qed.

Lemma is_char_eqb (n : nat) (c : ascii) :
  (n < 256)%nat -> is_char n c = Ascii.eqb c (ascii_of_nat n).
Proof.
  intros Hn. unfold is_char.
  destruct (Ascii.eqb_spec c (ascii_of_nat n)) as [->|Hc].
  - rewrite nat_ascii_embedding by exact Hn. apply Nat.eqb_refl.
  - apply Nat.eqb_neq. intros E. apply Hc. rewrite <- E.
    symmetry. apply ascii_nat_embedding.
Qed.

(** What [isPoWValid] hands to the constructor always reads [0x] and the
    digits. *)
Lemma normalised_pow (pow : string) :
  list_ascii_of_string (if negb (startsWith pow "0x") then "0x" +++ pow else pow)
  = "0"%char :: "x"%char :: hash_digits pow.
Proof.
  unfold hash_digits.
  destruct pow as [|z [|x rest]]; cbn [startsWith list_ascii_of_string].
  - reflexivity.
  - rewrite andb_false_r. reflexivity.
  - rewrite (is_char_eqb 48 z), (is_char_eqb 120 x) by lia.
    change (ascii_of_nat 48) with "0"%char. change (ascii_of_nat 120) with "x"%char.
    replace (startsWith rest EmptyString) with true by (destruct rest; reflexivity).
    rewrite andb_true_r.
    destruct (Ascii.eqb_spec z "0") as [->|Hz]; cbn [andb negb].
    + destruct (Ascii.eqb_spec x "x") as [->|Hx]; reflexivity.
    + reflexivity.
Qed.

Lemma parse_decimal_0x (s : string) (ds : list ascii) :
  list_ascii_of_string s = "0"%char :: "x"%char :: ds -> parse_decimal s = None.
Proof. intros E. unfold parse_decimal. rewrite E. reflexivity. Qed.

Lemma parse_hex_0x (s : string) (ds : list ascii) :
  list_ascii_of_string s = "0"%char :: "x"%char :: ds ->
  parse_hex s =
  match ds with
  | [] => None
  | _ :: _ =>
      match hex_digits_value ds 0 with
      | Some v => Some (mkBigNumber v 0)
      | None => None
      end
  end.
Proof.
  intros E. unfold parse_hex. rewrite E.
  destruct ds as [|d ds]; [reflexivity|].
  cbv -[hex_digits_value Z.mul].
  destruct (hex_digits_value (d :: ds) 0) as [v|]; [|reflexivity].
  destruct v; reflexivity.
Qed.

Lemma hex_digits_value_spec (ds : list ascii) (acc : Z) :
  hex_digits_value ds acc =
  if forallb is_hex_digit ds
  then Some (fold_left (fun a c => 16 * a + match hex_value c with Some d => d | None => 0 end)
                       ds acc)
  else None.
Proof.
  revert acc. induction ds as [|c ds IH]; intros acc; simpl; [reflexivity|].
  unfold is_hex_digit at 1. destruct (hex_value c) as [d|]; simpl; [apply IH | reflexivity].
Qed.

(** [isPoWValid] in one equation: the digits must be a non-empty run of
    hexadecimal digits, and the number they denote at most [LIMIT]. *)
Lemma isPoWValid_eq (pow : string) :
  isPoWValid pow =
  match hash_digits pow with
  | [] => false
  | ds => forallb is_hex_digit ds && (hex_number ds <=? LIMIT)
  end.
Proof.
  unfold isPoWValid, isPoWValid_try, BigNumber_new at 1.
  pose proof (normalised_pow pow) as E.
  rewrite (parse_decimal_0x _ _ E), (parse_hex_0x _ _ E).
  destruct (hash_digits pow) as [|d ds]; [reflexivity|].
  rewrite hex_digits_value_spec. fold (hex_number (d :: ds)).
  destruct (forallb is_hex_digit (d :: ds)); [|reflexivity].
  rewrite TARGET_toString_value. cbn [bind try_catch andb].
  unfold lessThanOrEqualTo, LIMIT. cbn [coefficient exponent].
  change (Z.min 0 60) with 0. change (0 - 0) with 0. change (60 - 0) with 60.
  rewrite Z.pow_0_r, Z.mul_1_r. reflexivity.
Qed.

(** A well-formed hash: the 64 hexadecimal digits of a SHA-256 digest. *)
Definition well_formed_hash (pow : string) : bool :=
  Nat.eqb (String.length pow) 64 && forallb is_hex_digit (list_ascii_of_string pow).

(** The hash whose numeric value is the target itself. *)
Definition hash_of_TARGET : string :=
  "1000000000000000000000000000000000000000000000000000000000000000".

(** The largest hash with four leading zero bits: the target minus one. *)
Definition hash_below_TARGET : string :=
  "0fffffffffffffffffffffffffffffffffffffffffffffffffffffffffffffff".

(** The hash whose numeric value is the target plus one. *)
Definition hash_above_TARGET : string :=
  "1000000000000000000000000000000000000000000000000000000000000001".

(** C2, the code at the boundary: the hash that denotes exactly
    2^(256 - DIFFICULTY) is a well-formed 64-digit hash and [isPoWValid]
    rejects it, as it rejects the hash just below, because the bound it
    compares with is the 16-digit decimal rendering of the target,
    7237005577332262e60, which is smaller than the target; the hash one
    above the target is rejected as well. *)
Theorem isPoWValid_rejects_hash_equal_to_TARGET :
  hex_number (hash_digits hash_of_TARGET) = TARGET /\
  well_formed_hash hash_of_TARGET = true /\
  isPoWValid hash_of_TARGET = false /\
  hex_number (hash_digits hash_below_TARGET) = TARGET - 1 /\
  isPoWValid hash_below_TARGET = false /\
  hex_number (hash_digits hash_above_TARGET) = TARGET + 1 /\
  isPoWValid hash_above_TARGET = false /\
  BigNumber_new TARGET_toString = Ok (mkBigNumber 7237005577332262 60) /\
  7237005577332262 * 10 ^ 60 < TARGET.
Proof.
  repeat split; try reflexivity.
Qed.

(** For well-formed hashes the predicate is the comparison with [LIMIT],
    not with [TARGET]. *)
Lemma isPoWValid_iff_below_LIMIT (pow : string) :
  hash_digits pow <> [] ->
  forallb is_hex_digit (hash_digits pow) = true ->
  (isPoWValid pow = true <-> hex_number (hash_digits pow) <= LIMIT).
Proof.
  rewrite isPoWValid_eq.
  destruct (hash_digits pow) as [|d ds]; intros Hne Hhex; [now elim Hne|].
  cbv beta iota zeta. rewrite Hhex. cbn [andb]. apply Z.leb_le.
Qed.

(** A printing character that no hexadecimal literal contains: neither a
    hexadecimal digit, nor the prefix letter, nor the point. *)
Definition foreign_char (c : ascii) : bool :=
  let n := nat_of_ascii c in
  Nat.leb 33 n && Nat.leb n 126 && negb (is_hex_digit c) &&
  negb (is_char 120 c || is_char 88 c || is_char 46 c).

(** C3 as stated fails: the three-character string abc is not a
    well-formed hash (wrong length), yet [isPoWValid] answers true. *)
Lemma isPoWValid_accepts_wrong_length :
  ~ (forall pow, well_formed_hash pow = false -> isPoWValid pow = false).
Proof.
  intros H. specialize (H "abc" eq_refl). vm_compute in H. discriminate H.
Qed.

Lemma hash_digits_keeps_foreign (pow : string) (c : ascii) :
  In c (list_ascii_of_string pow) -> foreign_char c = true -> In c (hash_digits pow).
Proof.
  unfold hash_digits. intros Hin Hc.
  destruct (list_ascii_of_string pow) as [|z [|x rest]]; try exact Hin.
  destruct (is_char 48 z && is_char 120 x) eqn:E; [|exact Hin].
  apply andb_true_iff in E. destruct E as [Ez Ex].
  apply is_char_eq in Ez. apply is_char_eq in Ex. subst z x.
  destruct Hin as [<-|[<-|Hin]]; [discriminate Hc | discriminate Hc | exact Hin].
Qed.

Lemma hash_digits_of_hex_string (pow : string) :
  forallb is_hex_digit (list_ascii_of_string pow) = true ->
  hash_digits pow = list_ascii_of_string pow.
Proof.
  unfold hash_digits. intros H.
  destruct (list_ascii_of_string pow) as [|z [|x rest]]; try reflexivity.
  destruct (is_char 120 x) eqn:Ex.
  - apply is_char_eq in Ex. subst x. cbn in H.
    rewrite andb_false_r in H. discriminate H.
  - rewrite andb_false_r. reflexivity.
Qed.

(** C3, amended: [isPoWValid] answers every string without raising (its
    type is [bool], and whenever the body of the [try] throws the answer is
    [false]); it answers [false] for the empty string and for a string
    with a character foreign to hexadecimal literals; but it does not look
    at the length: a non-empty string of hexadecimal digits of any length
    is compared as a number with the bound. *)
Theorem isPoWValid_total_without_length_check :
  (forall pow e, isPoWValid_try pow = Throw e -> isPoWValid pow = false) /\
  isPoWValid EmptyString = false /\
  (forall pow c, In c (list_ascii_of_string pow) -> foreign_char c = true ->
                 isPoWValid pow = false) /\
  (forall pow, pow <> EmptyString ->
               forallb is_hex_digit (list_ascii_of_string pow) = true ->
               isPoWValid pow = (hex_number (list_ascii_of_string pow) <=? LIMIT)).
Proof.
  split; [|split; [|split]].
  - intros pow e H. unfold isPoWValid. rewrite H. reflexivity.
  - reflexivity.
  - intros pow c Hin Hc. rewrite isPoWValid_eq.
    pose proof (hash_digits_keeps_foreign pow c Hin Hc) as Hd.
    destruct (hash_digits pow) as [|d ds]; [reflexivity|].
    cbv beta iota zeta.
    replace (forallb is_hex_digit (d :: ds)) with false; [reflexivity|].
    symmetry. apply not_true_is_false. intros Hall.
    rewrite forallb_forall in Hall. specialize (Hall c Hd).
    unfold foreign_char in Hc. rewrite Hall in Hc.
    rewrite andb_false_r in Hc. discriminate Hc.
  - intros pow Hne Hhex. rewrite isPoWValid_eq.
    rewrite (hash_digits_of_hex_string pow Hhex).
    destruct pow as [|c pow]; [now elim Hne|].
    cbn [list_ascii_of_string] in *. cbv beta iota zeta.
    rewrite Hhex. reflexivity.
Qed.

Lemma isPoWValid_total_without_length_check_witness :
  isPoWValid "zz" = false /\ isPoWValid "abc" = true.
Proof.
  destruct isPoWValid_total_without_length_check as [_ [_ [Hforeign Hhex]]].
  split.
  - apply (Hforeign "zz" "z"%char); [left; reflexivity | reflexivity].
  - rewrite (Hhex "abc"); [reflexivity | discriminate | reflexivity].
Defined.

(* ================================================================== *)
(** ** Structural equality *)

Lemma list_eqb_eq {A : Type} (eqb : A -> A -> bool) :
  (forall x y, eqb x y = true <-> x = y) ->
  forall l1 l2, list_eqb eqb l1 l2 = true <-> l1 = l2.
Proof.
  intros Heqb. induction l1 as [|x l1 IH]; intros [|y l2]; cbn [list_eqb];
    try (split; [discriminate | congruence]); [split; reflexivity|].
  rewrite andb_true_iff, Heqb, IH. split.
  - intros [-> ->]. reflexivity.
  - intros E. injection E as -> ->. split; reflexivity.
Qed.

Lemma option_eqb_eq {A : Type} (eqb : A -> A -> bool) :
  (forall x y, eqb x y = true <-> x = y) ->
  forall o1 o2, option_eqb eqb o1 o2 = true <-> o1 = o2.
Proof.
  intros Heqb [x|] [y|]; cbn [option_eqb];
    try (split; [discriminate | congruence]); [|split; reflexivity].
  rewrite Heqb. split; congruence.
Qed.

Lemma Wallet_eqb_eq (w1 w2 : Wallet) : Wallet_eqb w1 w2 = true <-> w1 = w2.
Proof.
  destruct w1 as [k1 a1], w2 as [k2 a2]. unfold Wallet_eqb. cbn [privateKey address].
  rewrite andb_true_iff, !String.eqb_eq. split.
  - intros [-> ->]. reflexivity.
  - intros E. injection E as -> ->. split; reflexivity.
Qed.

Lemma TransactionOutput_eqb_eq (o1 o2 : TransactionOutput) :
  TransactionOutput_eqb o1 o2 = true <-> o1 = o2.
Proof.
  destruct o1 as [r1 a1], o2 as [r2 a2]. unfold TransactionOutput_eqb.
  cbn [recipientAddress amount].
  rewrite andb_true_iff, String.eqb_eq, Z.eqb_eq. split.
  - intros [-> ->]. reflexivity.
  - intros E. injection E as -> ->. split; reflexivity.
Qed.

(** On transactions the comparison is equality; the proof follows the
    nesting of transactions inside the inputs of transactions. *)
Lemma Transaction_eqb_true : forall a b, Transaction_eqb a b = true -> a = b.
Proof.
  fix IH 1. intros [w1 i1 o1 s1] [w2 i2 o2 s2]. cbn [Transaction_eqb]. intros H.
  apply andb_true_iff in H. destruct H as [H Hs].
  apply andb_true_iff in H. destruct H as [H Ho].
  apply andb_true_iff in H. destruct H as [Hw Hi].
  apply (option_eqb_eq Wallet_eqb Wallet_eqb_eq) in Hw.
  apply (list_eqb_eq TransactionOutput_eqb TransactionOutput_eqb_eq) in Ho.
  apply String.eqb_eq in Hs. subst w2 o2 s2. f_equal.
  revert i2 Hi. induction i1 as [|[t1 k1] i1 IHl]; intros [|[t2 k2] i2] Hi;
    try discriminate Hi; [reflexivity|].
  apply andb_true_iff in Hi. destruct Hi as [Hi Hrest].
  apply andb_true_iff in Hi. destruct Hi as [Ht Hk].
  apply IH in Ht. apply Z.eqb_eq in Hk. subst t2 k2. f_equal. apply IHl. exact Hrest.
Qed.

Lemma Transaction_eqb_refl : forall a, Transaction_eqb a a = true.
Proof.
  fix IH 1. intros [w i o s]. cbn [Transaction_eqb].
  rewrite (proj2 (option_eqb_eq Wallet_eqb Wallet_eqb_eq w w) eq_refl).
  rewrite (proj2 (list_eqb_eq TransactionOutput_eqb TransactionOutput_eqb_eq o o) eq_refl).
  rewrite String.eqb_refl, !andb_true_r. cbn [andb].
  induction i as [|[t k] i IHl]; [reflexivity|].
  rewrite IH, Z.eqb_refl, IHl. reflexivity.
Qed.

Lemma Transaction_eqb_eq (a b : Transaction) : Transaction_eqb a b = true <-> a = b.
Proof.
  split; [apply Transaction_eqb_true | intros ->; apply Transaction_eqb_refl].
Qed.

(** A block with the class of every object in it forgotten. *)
Fixpoint erase_class (b : Block) : Block :=
  match b with
  | mkBlock txs anc miner n h num valid _ =>
      mkBlock txs
              match anc with
              | Some a => Some (erase_class a)
              | None => None
              end
              miner n h num valid false
  end.

(** [deepEqual] on blocks is equality of everything but the classes. *)
Lemma deepEqual_iff : forall a b, deepEqual a b = true <-> erase_class a = erase_class b.
Proof.
  fix IH 1. intros [txs1 anc1 miner1 n1 h1 num1 valid1 g1] [txs2 anc2 miner2 n2 h2 num2 valid2 g2].
  cbn [deepEqual erase_class].
  rewrite !andb_true_iff, (list_eqb_eq Transaction_eqb Transaction_eqb_eq),
    String.eqb_eq, (option_eqb_eq Z.eqb Z.eqb_eq), (option_eqb_eq String.eqb String.eqb_eq),
    Z.eqb_eq, Bool.eqb_true_iff.
  assert (Hanc : match anc1, anc2 with
                 | Some x, Some y => deepEqual x y
                 | None, None => true
                 | _, _ => false
                 end = true <->
                 match anc1 with Some a => Some (erase_class a) | None => None end
                 = match anc2 with Some a => Some (erase_class a) | None => None end).
  { destruct anc1 as [x|], anc2 as [y|]; try (split; [discriminate | congruence]);
      [|split; reflexivity].
    rewrite IH. split; congruence. }
  rewrite Hanc. split.
  - intros [[[[[[-> ->] ->] ->] ->] ->] ->]. reflexivity.
  - intros E. injection E as -> -> -> -> -> -> ->. repeat split; reflexivity.
Qed.

(* ================================================================== *)
(** ** Chain validation *)

(** The hash a block stores for its ancestor, [ancestor.hash]; nothing
    when there is no ancestor or the ancestor has no hash. *)
Definition ancestorHash (b : Block) : option string :=
  match ancestor b with
  | Some a => hash a
  | None => None
  end.

(** The three checks of the loop of [Blockchain.verify] at index [i]. *)
Definition linked (previous current : Block) : Prop :=
  exists h, Block_sha256 previous = Ok h /\ ancestorHash current = Some h.

Definition powValid (current : Block) : Prop :=
  exists pow, Block_sha256 current = Ok pow /\ isPoWValid pow = true.

Definition block_ok (i : Z) (previous current : Block) : Prop :=
  blockNumber current = i /\ linked previous current /\ powValid current.

Lemma option_string_eqb_Some (o : option string) (h : string) :
  option_eqb String.eqb o (Some h) = true <-> o = Some h.
Proof.
  destruct o as [x|]; simpl.
  - rewrite String.eqb_eq. split; congruence.
  - split; discriminate.
Qed.

Lemma verify_from_cons (i : Z) (previous current : Block) (rest : list Block) :
  verify_from i previous (current :: rest) = Ok tt <->
  block_ok i previous current /\ verify_from (i + 1) current rest = Ok tt.
Proof.
  unfold block_ok, linked, powValid, ancestorHash. cbn [verify_from].
  destruct (Z.eqb_spec (blockNumber current) i) as [Hn|Hn]; cbn [negb].
  2:{ split; [discriminate | intros [[H _] _]; contradiction]. }
  destruct (ancestor current) as [a|]; cbn [defined bind].
  2:{ split; [discriminate | intros [[_ [[h [_ H]] _]] _]; discriminate]. }
  destruct (Block_sha256 previous) as [h|e]; cbn [bind].
  2:{ split; [discriminate | intros [[_ [[h [H _]] _]] _]; discriminate]. }
  destruct (option_eqb String.eqb (hash a) (Some h)) eqn:Eh; cbn [negb].
  2:{ split; [discriminate|]. intros [[_ [[h' [H1 H2]] _]] _].
      injection H1 as <-. apply option_string_eqb_Some in H2. congruence. }
  apply option_string_eqb_Some in Eh.
  destruct (Block_sha256 current) as [pow|e]; cbn [bind].
  2:{ split; [discriminate | intros [[_ [_ [pow [H _]]]] _]; discriminate]. }
  destruct (isPoWValid pow) eqn:Ep; cbn [negb].
  2:{ split; [discriminate|]. intros [[_ [_ [pow' [H1 H2]]]] _].
      injection H1 as <-. congruence. }
  split.
  - intros H. repeat split; eauto.
  - intros [_ H]. exact H.
Qed.

Lemma verify_from_iff (rest : list Block) :
  forall i previous,
    verify_from i previous rest = Ok tt <->
    (forall k p current,
        nth_error (previous :: rest) k = Some p ->
        nth_error rest k = Some current ->
        block_ok (i + Z.of_nat k) p current).
Proof.
  induction rest as [|b rest IH]; intros i previous.
  - split; [|reflexivity]. intros _ k p current _ H. destruct k; discriminate H.
  - rewrite verify_from_cons, IH. split.
    + intros [H0 Hrest] k p current Hp Hc. destruct k as [|k].
      * injection Hp as <-. injection Hc as <-. now rewrite Z.add_0_r.
      * replace (i + Z.of_nat (S k)) with (i + 1 + Z.of_nat k) by lia.
        apply Hrest; assumption.
    + intros H. split.
      * rewrite <- (Z.add_0_r i). apply (H 0%nat); reflexivity.
      * intros k p current Hp Hc.
        replace (i + 1 + Z.of_nat k) with (i + Z.of_nat (S k)) by lia.
        apply H; assumption.
Qed.

Lemma verify_try_true (chain : list Block) :
  verify chain = true <-> verify_try chain = Ok true.
Proof.
  unfold verify, try_catch. destruct (verify_try chain) as [b|e].
  - split; congruence.
  - split; discriminate.
Qed.

Lemma index_nat {A : Type} (l : list A) (k : nat) :
  index l (Z.of_nat k) = nth_error l k.
Proof.
  unfold index. destruct (Z.ltb_spec (Z.of_nat k) 0) as [Hlt|Hge]; [lia|].
  now rewrite Nat2Z.id.
Qed.

Lemma index_Some_nat {A : Type} (l : list A) (i : Z) (x : A) :
  index l i = Some x -> 0 <= i /\ nth_error l (Z.to_nat i) = Some x.
Proof.
  unfold index. destruct (Z.ltb_spec i 0) as [Hlt|Hge]; [discriminate|].
  intros Hx. split; [lia | exact Hx].
Qed.

(** [Blockchain.verify] answers true exactly when the chain starts with a
    block that deep-equals the genesis block and every later block passes
    the three checks against the block before it. *)
Lemma verify_iff (chain : list Block) :
  verify chain = true <->
  (exists first, index chain 0 = Some first /\ deepEqual first GENESIS_BLOCK = true) /\
  (forall i previous current,
      1 <= i ->
      index chain (i - 1) = Some previous ->
      index chain i = Some current ->
      block_ok i previous current).
Proof.
  rewrite verify_try_true. destruct chain as [|first rest]; cbn [verify_try].
  - split; [discriminate | intros [[first [H _]] _]; discriminate].
  - destruct (deepEqual first GENESIS_BLOCK) eqn:Eg; cbn [negb].
    2:{ split; [discriminate|]. intros [[f [H1 H2]] _].
        injection H1 as <-. congruence. }
    assert (Hbind : (_ <- verify_from 1 first rest ;; Ok true) = Ok true <->
                    verify_from 1 first rest = Ok tt).
    { destruct (verify_from 1 first rest) as [[]|e]; cbn [bind];
        split; try reflexivity; discriminate. }
    rewrite Hbind, verify_from_iff. split.
    + intros H. split; [exists first; split; [reflexivity | exact Eg]|].
      intros i previous current Hi Hp Hc.
      apply index_Some_nat in Hp. apply index_Some_nat in Hc.
      destruct Hp as [_ Hp]. destruct Hc as [_ Hc].
      replace i with (1 + Z.of_nat (Z.to_nat (i - 1))) by lia.
      apply H; [exact Hp|].
      replace (Z.to_nat i) with (S (Z.to_nat (i - 1))) in Hc by lia. exact Hc.
    + intros [_ H] k p current Hp Hc.
      apply H; [lia | |].
      * replace (1 + Z.of_nat k - 1) with (Z.of_nat k) by lia.
        now rewrite index_nat.
      * replace (1 + Z.of_nat k) with (Z.of_nat (S k)) by lia.
        now rewrite index_nat.
Qed.

(** *** Concrete chains *)

(** The ledger of a node that starts on an empty store. *)
Definition fresh : Blockchain := mkBlockchain [GENESIS_BLOCK] [] Missing Missing.

(** The constructor of [GenesisBlock] does yield [GENESIS_BLOCK]: with
    nonce 8 the digest starts with a zero digit. *)
Lemma GENESIS_BLOCK_constructed (rsa_verify : string -> string -> Buffer -> result bool) :
  GenesisBlock_new rsa_verify 64 SATOSHI_NAKAMOTO = Some (Ok GENESIS_BLOCK).
Proof. vm_compute. reflexivity. Qed.

(** The block that [createBlock] mines for the address A on the fresh
    ledger, and the ledger afterwards. *)
Definition honest_block : Block :=
  mkBlock [GenesisTransaction "A" MINING_REWARD] (Some GENESIS_BLOCK) "A" (Some 1)
          (Some "0335c5d1020d47e6e80e515f0273368794b58a9178bb724a49aeca0b76256bd6")
          1 true false.

Definition mined : Blockchain :=
  mkBlockchain [GENESIS_BLOCK; honest_block] []
               (Stored [GENESIS_BLOCK; honest_block]) (Stored []).

Lemma mined_reached (rsa_verify : string -> string -> Buffer -> result bool) :
  createBlock rsa_verify 64 fresh "A" = Some (Ok honest_block, mined).
Proof. vm_compute. reflexivity. Qed.

(** [sha256()] hashes the JSON of the block, [hash] included once it is
    set, so on a sealed block it no longer returns the stored hash: the
    chain the node has just mined does not pass [Blockchain.verify]. *)
Lemma mined_chain_fails_verify : verify (blocks mined) = false.
Proof. vm_compute. reflexivity. Qed.

(** A block made to pass: its ancestor object carries the hash that
    [sha256()] computes for the sealed genesis block, and its nonce was
    searched for with the [hash] field already filled in. *)
Definition forged_block : Block :=
  mkBlock [GenesisTransaction "M" MINING_REWARD]
          (Some (set_hash GENESIS_BLOCK
                   "b0736368f39e0f8993d201438850eefdf5ad3a0e11c880224175cd791d116de9"))
          "M" (Some 29) (Some "00") 1 true false.

Lemma forged_chain_passes_verify : verify [GENESIS_BLOCK; forged_block] = true.
Proof. vm_compute. reflexivity. Qed.

(** The digest [sha256()] computes for the genesis block once it is
    sealed, its own [hash] included in the JSON. *)
Definition sealed_genesis_digest : string :=
  "b0736368f39e0f8993d201438850eefdf5ad3a0e11c880224175cd791d116de9".

(** What deep equality with the genesis block says of the fields
    validation reads. *)
Lemma deepEqual_genesis_fields (first : Block) :
  deepEqual first GENESIS_BLOCK = true ->
  ancestor first = None /\ nonce first = nonce GENESIS_BLOCK /\
  hash first = hash GENESIS_BLOCK /\ blockNumber first = 0.
Proof.
  intros H. apply deepEqual_iff in H.
  destruct first as [txs anc miner n h num valid g].
  cbn [erase_class GENESIS_BLOCK] in H.
  cbn [ancestor nonce hash blockNumber GENESIS_BLOCK].
  destruct anc as [a|]; [discriminate H|].
  injection H as _ _ -> -> -> _. repeat split.
Qed.

Lemma Block_sha256_of_genesis_copy (first : Block) :
  deepEqual first GENESIS_BLOCK = true ->
  Block_sha256 first =
  if isGenesisBlock first then Ok sealed_genesis_digest else Throw "TypeError".
Proof.
  intros H. destruct (deepEqual_genesis_fields first H) as [Ha [Hn [Hh Hb]]].
  unfold Block_sha256, Block_toJson. rewrite Ha, Hn, Hh, Hb.
  destruct (isGenesisBlock first); [vm_compute; reflexivity | reflexivity].
Qed.

Lemma verify_second_block (first second : Block) (rest : list Block) :
  verify (first :: second :: rest) = true ->
  isGenesisBlock first = true /\
  ancestorHash second = Some sealed_genesis_digest /\
  blockNumber second = 1.
Proof.
  intros H. apply verify_iff in H. destruct H as [[f [Hf Hg]] Hstep].
  injection Hf as <-.
  destruct (Hstep 1 first second) as [Hn [[h [Hh Ha]] _]]; [lia | reflexivity | reflexivity|].
  rewrite (Block_sha256_of_genesis_copy first Hg) in Hh.
  destruct (isGenesisBlock first); [|discriminate Hh].
  injection Hh as <-. repeat split; assumption.
Qed.

(** A block whose stored hash fails the proof of work and whose ancestor
    object does not carry the hash of the genesis block, made to pass
    nevertheless: the ancestor object carries the digest of the sealed
    genesis block, and the nonce was searched for with the [hash] field
    filled in. *)
Definition unworked_block : Block :=
  mkBlock [GenesisTransaction "M" MINING_REWARD]
          (Some (set_hash GENESIS_BLOCK sealed_genesis_digest))
          "M" (Some 12)
          (Some "ffffffffffffffffffffffffffffffffffffffffffffffffffffffffffffffff")
          1 true false.

(** C1: the checks of [Blockchain.verify] are not on the hashes the claim
    names.  It does answer false for the empty sequence, when the first
    block does not deep-equal the genesis block, and when a block number
    is not the index.  But the hash it compares the stored ancestor hash
    with, and the hash it tests the proof of work on, are [sha256()] of
    the block as it stands, sealed, with its [hash] field in the JSON, not
    the hash the block stores: every chain of two blocks or more whose
    second block stores the hash of the first as its ancestor hash is
    answered false, and a chain whose second block stores another
    ancestor hash, and a hash of its own that fails the proof of work, is
    answered true. *)
Theorem Blockchain_verify_checks_sealed_digests :
  verify [] = false /\
  (forall first rest,
      deepEqual first GENESIS_BLOCK = false -> verify (first :: rest) = false) /\
  (forall chain i current,
      1 <= i -> index chain i = Some current -> blockNumber current <> i ->
      verify chain = false) /\
  (forall first second rest,
      ancestorHash second = hash first -> verify (first :: second :: rest) = false) /\
  (exists pow,
      hash unworked_block = Some pow /\ isPoWValid pow = false /\
      blockNumber unworked_block = 1 /\
      ancestorHash unworked_block <> hash GENESIS_BLOCK /\
      verify [GENESIS_BLOCK; unworked_block] = true).
Proof.
  split; [reflexivity|]. split; [|split; [|split]].
  - intros first rest H. apply not_true_is_false. rewrite verify_iff.
    intros [[f [H1 H2]] _]. injection H1 as <-. congruence.
  - intros chain i current Hi Hc Hbad.
    apply not_true_is_false. rewrite verify_iff. intros [_ H].
    destruct (index chain (i - 1)) as [previous|] eqn:Hp.
    + destruct (H i previous current Hi Hp Hc) as [Hn _]. contradiction.
    + apply index_Some_nat in Hc. destruct Hc as [_ Hc].
      unfold index in Hp. destruct (Z.ltb_spec (i - 1) 0) as [Hlt|Hge]; [lia|].
      apply nth_error_None in Hp.
      assert (Hlen : (Z.to_nat i < List.length chain)%nat)
        by (apply nth_error_Some; congruence).
      lia.
  - intros first second rest Hlink. apply not_true_is_false. intros Htrue.
    pose proof (verify_second_block first second rest Htrue) as [_ [Hseal _]].
    apply verify_iff in Htrue. destruct Htrue as [[f [Hf Hg]] _].
    injection Hf as <-.
    destruct (deepEqual_genesis_fields first Hg) as [_ [_ [Hh _]]].
    rewrite Hlink, Hh in Hseal. discriminate Hseal.
  - exists "ffffffffffffffffffffffffffffffffffffffffffffffffffffffffffffffff".
    split; [reflexivity|]. split; [vm_compute; reflexivity|].
    split; [reflexivity|]. split; [discriminate|].
    vm_compute. reflexivity.
Qed.

Lemma Blockchain_verify_checks_sealed_digests_witness :
  verify [GENESIS_BLOCK; honest_block] = false /\
  verify [forged_block] = false /\
  verify [GENESIS_BLOCK; set_nonce unworked_block 12; unworked_block] = false.
Proof.
  destruct Blockchain_verify_checks_sealed_digests as [_ [Hfirst [Hnumber [Hlink _]]]].
  split; [|split].
  - apply Hlink. reflexivity.
  - apply Hfirst. reflexivity.
  - apply (Hnumber _ 2 unworked_block); [lia | reflexivity | discriminate].
Defined.

(* ================================================================== *)
(** ** Initialisation *)

(** C9: starting on an empty store is not an error; the chain is the
    genesis block alone, so its first block deep-equals the canonical
    genesis block, and the pool is empty. *)
Theorem Blockchain_new_on_empty_store :
  exists bc,
    Blockchain_new Missing Missing = Ok bc /\
    (exists first, index (blocks bc) 0 = Some first /\
                   deepEqual first GENESIS_BLOCK = true) /\
    blocks bc = [GENESIS_BLOCK] /\
    transactionPool bc = [].
Proof.
  exists fresh. split; [vm_compute; reflexivity|].
  split; [exists GENESIS_BLOCK; split; reflexivity|].
  split; reflexivity.
Qed.

(* ================================================================== *)
(** ** Consensus *)

Lemma verify_nonempty (c : list Block) : verify c = true -> 0 < len c.
Proof.
  destruct c as [|b c]; [discriminate|]. intros _. unfold len. cbn [List.length]. lia.
Qed.

(** What the scan returns: either it keeps the best candidate it started
    with, and then no candidate longer than [maxLength] is valid; or it
    ends on a valid candidate at position [i + k], longer than
    [maxLength] and at least as long as every valid candidate. *)
Lemma consensus_scan_spec (rest : list (list Block)) :
  forall i maxLength best,
    let r := consensus_scan rest i maxLength best in
    (r = (maxLength, best) /\
     forall c, In c rest -> verify c = true -> len c <= maxLength) \/
    (exists k c,
        nth_error rest k = Some c /\ snd r = i + Z.of_nat k /\
        verify c = true /\ len c = fst r /\ maxLength < fst r /\
        forall c', In c' rest -> verify c' = true -> len c' <= fst r).
Proof.
  induction rest as [|candidate rest IH]; intros i maxLength best; cbn [consensus_scan].
  - left. split; [reflexivity | intros c []].
  - destruct (Z.leb_spec (len candidate) maxLength) as [Hle|Hgt].
    + destruct (IH (i + 1) maxLength best) as [[E H]|[k [c [Hk [Hb [Hv [Hl [Hm H]]]]]]]].
      * left. split; [exact E|]. intros c [<-|Hin] Hc; [exact Hle | now apply H].
      * right. exists (S k), c. repeat split; try assumption; [lia|].
        intros c' [<-|Hin] Hc'; [lia | now apply H].
    + destruct (verify candidate) eqn:Ev.
      * destruct (IH (i + 1) (len candidate) i) as [[E H]|[k [c [Hk [Hb [Hv [Hl [Hm H]]]]]]]].
        -- right. exists 0%nat, candidate. rewrite E. cbn [fst snd nth_error].
           repeat split; try assumption; try lia.
           intros c' [<-|Hin] Hc'; [lia | now apply H].
        -- right. exists (S k), c. repeat split; try assumption; try lia.
           intros c' [<-|Hin] Hc'; [lia | now apply H].
      * destruct (IH (i + 1) maxLength best) as [[E H]|[k [c [Hk [Hb [Hv [Hl [Hm H]]]]]]]].
        -- left. split; [exact E|]. intros c [<-|Hin] Hc; [congruence | now apply H].
        -- right. exists (S k), c. repeat split; try assumption; [lia|].
           intros c' [<-|Hin] Hc'; [congruence | now apply H].
Qed.

(** The scan as [consensus] starts it. *)
Lemma consensus_scan_initial (blockchains : list (list Block)) :
  let r := consensus_scan blockchains 0 0 (-1) in
  (r = (0, -1) /\ forall c, In c blockchains -> verify c = false) \/
  (exists c,
      nth_error blockchains (Z.to_nat (snd r)) = Some c /\ 0 <= snd r /\
      verify c = true /\ len c = fst r /\
      forall c', In c' blockchains -> verify c' = true -> len c' <= fst r).
Proof.
  destruct (consensus_scan_spec blockchains 0 0 (-1))
    as [[E H]|[k [c [Hk [Hb [Hv [Hl [Hm H]]]]]]]].
  - left. split; [exact E|]. intros c Hin. apply not_true_is_false. intros Hc.
    pose proof (verify_nonempty c Hc). specialize (H c Hin Hc). lia.
  - right. exists c. cbv zeta. rewrite Hb. cbn [Z.add]. rewrite Nat2Z.id.
    repeat split; try assumption. lia.
Qed.

(** The decision of [consensus], with the adopted chain. *)
Lemma consensus_cases (bc : Blockchain) (blockchains : list (list Block)) :
  (consensus bc blockchains = (false, bc) /\
   forall c, In c blockchains -> verify c = true ->
             len c <= len (blocks bc) /\ verify (blocks bc) = true) \/
  (exists c,
      consensus bc blockchains =
        (true, mkBlockchain c (transactionPool bc) (Stored c) (txpoolFile bc)) /\
      In c blockchains /\ verify c = true /\
      (forall c', In c' blockchains -> verify c' = true -> len c' <= len c) /\
      (len (blocks bc) < len c \/ verify (blocks bc) = false)).
Proof.
  unfold consensus.
  destruct (consensus_scan_initial blockchains) as [[E H]|[c [Hk [Hb [Hv [Hl H]]]]]].
  - cbv zeta in E. rewrite E. cbn [Z.eqb negb andb].
    left. split; [reflexivity|]. intros c Hin Hc. rewrite (H c Hin) in Hc. discriminate.
  - cbv zeta in Hk, Hb, Hl, H.
    destruct (consensus_scan blockchains 0 0 (-1)) as [maxLength best].
    cbn [fst snd] in *.
    destruct (Z.eqb_spec best (-1)) as [Hneg|_]; [lia|]. cbn [negb andb].
    destruct ((maxLength >? len (blocks bc)) || negb (verify (blocks bc))) eqn:Ed.
    + right. exists c. rewrite (nth_error_nth _ _ _ Hk).
      split; [reflexivity|]. split; [eapply nth_error_In; eassumption|].
      split; [exact Hv|]. split; [now rewrite Hl|].
      apply orb_true_iff in Ed. destruct Ed as [Ed|Ed].
      * left. apply Z.gtb_lt in Ed. lia.
      * right. now apply negb_true_iff in Ed.
    + left. split; [reflexivity|]. apply orb_false_iff in Ed. destruct Ed as [Ed1 Ed2].
      apply negb_false_iff in Ed2. intros c' Hin Hc'. split; [|exact Ed2].
      specialize (H c' Hin Hc').
      assert (~ len (blocks bc) < maxLength).
      { intros Hlt. apply Z.gtb_lt in Hlt. congruence. }
      lia.
Qed.




(* ================================================================== *)
(** ** Mining *)

Lemma every_true_iff {A : Type} (f : A -> result bool) (l : list A) :
  every f l = Ok true <-> forall x, In x l -> f x = Ok true.
Proof.
  induction l as [|a l IH]; cbn [every].
  - split; [intros _ x [] | reflexivity].
  - destruct (f a) as [[|]|e] eqn:Ea; cbn [bind].
    + rewrite IH. split.
      * intros H x [<-|Hin]; [exact Ea | now apply H].
      * intros H x Hin. apply H. now right.
    + split; [discriminate|]. intros H. specialize (H a (or_introl eq_refl)). congruence.
    + split; [discriminate|]. intros H. specialize (H a (or_introl eq_refl)). congruence.
Qed.

(** Whether [sha256()] throws does not depend on the nonce. *)
Lemma Block_sha256_nonce (b : Block) (n m : Z) (pow : string) :
  Block_sha256 (set_nonce b n) = Ok pow ->
  exists pow', Block_sha256 (set_nonce b m) = Ok pow'.
Proof.
  unfold Block_sha256, Block_toJson, set_nonce.
  cbn [isGenesisBlock ancestor nonce hash blockNumber transactions].
  destruct (isGenesisBlock b); cbn [bind]; [eauto|].
  destruct (ancestor b); cbn [defined bind]; [eauto | discriminate].
Qed.

(** If some nonce passes, the loop stops at the first that does, as soon
    as the fuel reaches it. *)
Lemma mine_loop_finds (b : Block) (k : nat) :
  forall start pow,
    Block_sha256 (set_nonce b (start + Z.of_nat k)) = Ok pow ->
    isPoWValid pow = true ->
    exists n pow',
      start <= n <= start + Z.of_nat k /\
      Block_sha256 (set_nonce b n) = Ok pow' /\
      isPoWValid pow' = true /\
      forall fuel, (k < fuel)%nat ->
                   mine_loop fuel b start = Some (Ok (set_hash (set_nonce b n) pow')).
Proof.
  induction k as [|k IH]; intros start pow Hsha Hpow.
  - rewrite Z.add_0_r in Hsha. exists start, pow.
    split; [lia|]. split; [exact Hsha|]. split; [exact Hpow|].
    intros [|fuel] Hfuel; [lia|]. cbn [mine_loop]. rewrite Hsha, Hpow. reflexivity.
  - destruct (Block_sha256_nonce b _ start _ Hsha) as [p0 Hp0].
    destruct (isPoWValid p0) eqn:Ev.
    + exists start, p0. split; [lia|]. split; [exact Hp0|]. split; [exact Ev|].
      intros [|fuel] Hfuel; [lia|]. cbn [mine_loop]. rewrite Hp0, Ev. reflexivity.
    + replace (start + Z.of_nat (S k)) with (start + 1 + Z.of_nat k) in Hsha by lia.
      destruct (IH (start + 1) pow Hsha Hpow) as [n [pow' [Hn [Hs [Hv Hrun]]]]].
      exists n, pow'. split; [lia|]. split; [exact Hs|]. split; [exact Hv|].
      intros [|fuel] Hfuel; [lia|]. cbn [mine_loop]. rewrite Hp0, Ev.
      apply Hrun. lia.
Qed.

Section MiningProperties.

Variable rsa_verify : string -> string -> Buffer -> result bool.

(** The block [createBlock] assembles before mining. *)
Definition assembled (bc : Blockchain) (last : Block) (miner : string) : Block :=
  mkBlock (GenesisTransaction miner MINING_REWARD :: transactionPool bc) (Some last)
          miner None None (blockNumber last + 1) true false.

(** The state [createBlock] leaves after appending [newBlock]. *)
Definition appended (bc : Blockchain) (newBlock : Block) : Blockchain :=
  mkBlockchain (blocks bc ++ [newBlock]) []
               (Stored (blocks bc ++ [newBlock])) (Stored []).

Lemma createBlock_rejects (fuel : nat) (bc : Blockchain) (miner : string)
      (tx : Transaction) :
  In tx (transactionPool bc) ->
  Transaction_verify rsa_verify tx <> Ok true ->
  exists e, createBlock rsa_verify fuel bc miner = Some (Throw e, bc).
Proof.
  intros Hin Hbad. unfold createBlock, Block_new.
  destruct (every (Transaction_verify rsa_verify) (transactionPool bc))
    as [[|]|e] eqn:Ee.
  - rewrite every_true_iff in Ee. elim Hbad. now apply Ee.
  - cbn [validTransaction negb]. eauto.
  - eauto.
Qed.

Lemma createBlock_seals (bc : Blockchain) (miner : string) (last : Block)
      (k : nat) (pow : string) :
  getLastBlock bc = Some last ->
  (forall tx, In tx (transactionPool bc) -> Transaction_verify rsa_verify tx = Ok true) ->
  Block_sha256 (set_nonce (assembled bc last miner) (Z.of_nat k)) = Ok pow ->
  isPoWValid pow = true ->
  exists n pow',
    0 <= n <= Z.of_nat k /\
    Block_sha256 (set_nonce (assembled bc last miner) n) = Ok pow' /\
    isPoWValid pow' = true /\
    let newBlock := set_hash (set_nonce (assembled bc last miner) n) pow' in
    forall fuel, (k < fuel)%nat ->
      createBlock rsa_verify fuel bc miner = Some (Ok newBlock, appended bc newBlock).
Proof.
  intros Hlast Hall Hsha Hpow.
  destruct (@mine_loop_finds (assembled bc last miner) k 0 pow Hsha Hpow)
    as [n [pow' [Hn [Hs [Hv Hrun]]]]].
  exists n, pow'. split; [lia|]. split; [exact Hs|]. split; [exact Hv|].
  intros newBlock fuel Hfuel. unfold createBlock, Block_new.
  apply every_true_iff in Hall. rewrite Hall, Hlast.
  unfold mine. fold (assembled bc last miner). rewrite (Hrun fuel Hfuel).
  reflexivity.
Qed.

(** C6: when some transaction of the pool fails verification (it is
    answered false, or verifying it throws), [createBlock] raises and
    leaves the ledger as it was, chain, pool and files; when all of them
    verify and some nonce passes the proof of work, then with enough fuel
    to reach it [createBlock] returns the sealed block (the coinbase and
    the pool on top of the last block, with a nonce and a hash that pass),
    appends it to the chain and empties the pool. *)
Theorem createBlock_rejects_or_seals (bc : Blockchain) (miner : string) :
  (forall fuel tx,
      In tx (transactionPool bc) ->
      Transaction_verify rsa_verify tx <> Ok true ->
      exists e, createBlock rsa_verify fuel bc miner = Some (Throw e, bc)) /\
  (forall last k pow,
      getLastBlock bc = Some last ->
      (forall tx, In tx (transactionPool bc) ->
                  Transaction_verify rsa_verify tx = Ok true) ->
      Block_sha256 (set_nonce (assembled bc last miner) (Z.of_nat k)) = Ok pow ->
      isPoWValid pow = true ->
      exists newBlock n pow',
        transactions newBlock =
          GenesisTransaction miner MINING_REWARD :: transactionPool bc /\
        ancestor newBlock = Some last /\
        blockNumber newBlock = blockNumber last + 1 /\
        nonce newBlock = Some n /\ hash newBlock = Some pow' /\
        Block_sha256 (set_nonce (assembled bc last miner) n) = Ok pow' /\
        isPoWValid pow' = true /\
        forall fuel, (k < fuel)%nat ->
          exists bc',
            createBlock rsa_verify fuel bc miner = Some (Ok newBlock, bc') /\
            blocks bc' = blocks bc ++ [newBlock] /\
            transactionPool bc' = [] /\
            chainFile bc' = Stored (blocks bc ++ [newBlock]) /\
            txpoolFile bc' = Stored []).
Proof.
  split.
  - intros fuel tx. apply createBlock_rejects.
  - intros last k pow Hlast Hall Hsha Hpow.
    destruct (@createBlock_seals bc miner last k pow Hlast Hall Hsha Hpow)
      as [n [pow' [Hn [Hs [Hv Hrun]]]]].
    exists (set_hash (set_nonce (assembled bc last miner) n) pow'), n, pow'.
    repeat split; try assumption.
    intros fuel Hfuel. eexists. split; [apply (Hrun fuel Hfuel)|].
    repeat split.
Qed.

End MiningProperties.

(** *** Concrete pools *)

Definition satoshi : Wallet := ToyRSA.wallet_of SATOSHI_NAKAMOTO.

(** The fresh ledger after the genesis miner has submitted a payment of
    10 to bob: the pooled transaction verifies. *)
Definition paying : Blockchain :=
  snd (submitTransaction ToyRSA.sign fresh satoshi "bob" 10).

(** The fresh ledger with a pooled transaction whose signature is not
    the signer's. *)
Definition tampered : Blockchain :=
  addToTransactionPool fresh
    (mkTransaction (Some satoshi)
       [mkTransactionInput (GenesisTransaction SATOSHI_NAKAMOTO MINING_REWARD) 0]
       [mkTransactionOutput "bob" 10] "not a signature").

Lemma createBlock_rejects_or_seals_witness :
  (exists e, createBlock ToyRSA.verify 0 tampered "A" = Some (Throw e, tampered)) /\
  (exists newBlock bc',
      createBlock ToyRSA.verify 2 paying "A" = Some (Ok newBlock, bc') /\
      blocks bc' = blocks paying ++ [newBlock] /\
      (exists pow', hash newBlock = Some pow' /\ isPoWValid pow' = true) /\
      transactionPool bc' = []).
Proof.
  split.
  - destruct (createBlock_rejects_or_seals ToyRSA.verify tampered "A") as [Hreject _].
    eapply (Hreject 0%nat); [left; reflexivity|].
    vm_compute. discriminate.
  - destruct (createBlock_rejects_or_seals ToyRSA.verify paying "A") as [_ Hseal].
    destruct (Hseal GENESIS_BLOCK 1%nat
                "0d260454e085c4d847f86e34a45971ae5587832519b85bca42a86e863279373b")
      as [newBlock [n [pow' [_ [_ [_ [_ [Hhash [_ [Hvalid Hrun]]]]]]]]]].
    + reflexivity.
    + intros tx [<-|[]]. vm_compute. reflexivity.
    + vm_compute. reflexivity.
    + vm_compute. reflexivity.
    + destruct (Hrun 2%nat (le_n 2)) as [bc' [Hcreate [Hblocks [Hpool _]]]].
      exists newBlock, bc'. split; [exact Hcreate|]. split; [exact Hblocks|].
      split; [exists pow'; split; assumption | exact Hpool].
Defined.

(* ================================================================== *)
(** ** Balances *)

Definition sumZ (l : list Z) : Z := fold_right Z.add 0 l.

Lemma sumZ_cons (x : Z) (l : list Z) : sumZ (x :: l) = x + sumZ l.
Proof. reflexivity. Qed.

Definition owned (walletAddress : string) (o : TransactionOutput) : bool :=
  String.eqb (recipientAddress o) walletAddress.

(** The outputs the inputs of a transaction resolve to. *)
Definition resolved (tx : Transaction) : list TransactionOutput :=
  flat_map (fun txin => match parentOutput txin with
                        | Some o => [o]
                        | None => []
                        end) (inputs tx).

Definition resolvable (tx : Transaction) : Prop :=
  forall txin, In txin (inputs tx) -> parentOutput txin <> None.

(** What a transaction adds to and takes from an address. *)
Definition credit (walletAddress : string) (tx : Transaction) : Z :=
  sumZ (map amount (filter (owned walletAddress) (outputs tx))).

Definition debit (walletAddress : string) (tx : Transaction) : Z :=
  sumZ (map amount (filter (owned walletAddress) (resolved tx))).

Definition all_transactions (chain : list Block) : list Transaction :=
  flat_map transactions chain.

(** Amounts are JavaScript numbers.  The embedding holds them in [Z] and
    adds them exactly, which is what the program does on integers as long
    as no sum it forms leaves the range of the integers a double holds
    exactly, up to [Number.MAX_SAFE_INTEGER]; beyond it the program rounds
    (2^53 + 1 is 2^53).  The properties that state the value of a sum of
    amounts bound the magnitudes of all the amounts the sum runs over,
    which bounds every partial sum in whatever order they are added. *)
Definition MAX_SAFE_INTEGER : Z := 2 ^ 53 - 1.

Definition magnitude (outs : list TransactionOutput) : Z :=
  sumZ (map (fun o => Z.abs (amount o)) outs).

(** The amounts a transaction brings into a sum: those of its outputs and
    those of the outputs its inputs resolve to. *)
Definition moved (tx : Transaction) : Z :=
  magnitude (outputs tx) + magnitude (resolved tx).

Definition safe_amounts (txs : list Transaction) : Prop :=
  sumZ (map moved txs) <= MAX_SAFE_INTEGER.

Lemma magnitude_nonneg (outs : list TransactionOutput) : 0 <= magnitude outs.
Proof.
  unfold magnitude. induction outs as [|o outs IH]; cbn [map]; [cbn; lia|].
  rewrite sumZ_cons. lia.
Qed.

Lemma magnitude_bounds_sum (outs : list TransactionOutput) :
  Z.abs (sumZ (map amount outs)) <= magnitude outs.
Proof.
  unfold magnitude. induction outs as [|o outs IH]; cbn [map]; [cbn; lia|].
  rewrite !sumZ_cons. lia.
Qed.

Lemma concat_transactions (chain : list Block) (acc : list Transaction) :
  fold_left (fun all curr => all ++ transactions curr) chain acc
  = acc ++ all_transactions chain.
Proof.
  revert acc. induction chain as [|b chain IH]; intros acc; cbn [fold_left].
  - unfold all_transactions. cbn. now rewrite app_nil_r.
  - rewrite IH. unfold all_transactions. cbn [flat_map]. now rewrite app_assoc.
Qed.

Lemma inputs_pass (walletAddress : string) (ins : list TransactionInput) :
  forall bal,
    (forall txin, In txin ins -> parentOutput txin <> None) ->
    reduce (fun bal txin =>
              o <- defined (parentOutput txin) ;;
              Ok (if String.eqb (recipientAddress o) walletAddress
                  then bal - amount o else bal)) ins bal
    = Ok (bal - sumZ (map amount
                       (filter (owned walletAddress)
                          (flat_map (fun txin => match parentOutput txin with
                                                 | Some o => [o]
                                                 | None => []
                                                 end) ins)))).
Proof.
  induction ins as [|txin ins IH]; intros bal Hres; cbn [reduce flat_map].
  - cbn. now rewrite Z.sub_0_r.
  - destruct (parentOutput txin) as [o|] eqn:Eo.
    2:{ elim (Hres txin (or_introl eq_refl)). exact Eo. }
    cbn [defined bind app]. rewrite IH by (intros t Ht; apply Hres; now right).
    cbn [filter]. unfold owned at 2.
    destruct (String.eqb (recipientAddress o) walletAddress); cbn [map].
    + rewrite sumZ_cons. f_equal. lia.
    + reflexivity.
Qed.

Lemma outputs_pass (walletAddress : string) (outs : list TransactionOutput) :
  forall bal,
    fold_left (fun bal txout =>
                 if String.eqb (recipientAddress txout) walletAddress
                 then bal + amount txout else bal) outs bal
    = bal + sumZ (map amount (filter (owned walletAddress) outs)).
Proof.
  induction outs as [|o outs IH]; intros bal; cbn [fold_left filter].
  - cbn. now rewrite Z.add_0_r.
  - rewrite IH. unfold owned at 2.
    destruct (String.eqb (recipientAddress o) walletAddress); cbn [map].
    + rewrite sumZ_cons. lia.
    + reflexivity.
Qed.

(** [computeBalance] is the sum, over every transaction of every block,
    of what it adds to the address minus what its inputs take from it,
    provided every input resolves to an output (otherwise it throws). *)
Lemma computeBalance_spec (bc : Blockchain) (walletAddress : string) :
  (forall tx, In tx (all_transactions (blocks bc)) -> resolvable tx) ->
  computeBalance bc walletAddress =
  Ok (sumZ (map (fun tx => credit walletAddress tx - debit walletAddress tx)
                (all_transactions (blocks bc)))).
Proof.
  unfold computeBalance. rewrite concat_transactions. cbn [app].
  generalize (all_transactions (blocks bc)) as txs.
  assert (H : forall txs bal,
             (forall tx, In tx txs -> resolvable tx) ->
             reduce (fun balance tx =>
                       balance' <-
                         reduce (fun bal txin =>
                                   o <- defined (parentOutput txin) ;;
                                   Ok (if String.eqb (recipientAddress o) walletAddress
                                       then bal - amount o else bal))
                                (inputs tx) balance ;;
                       Ok (fold_left (fun bal txout =>
                                        if String.eqb (recipientAddress txout) walletAddress
                                        then bal + amount txout else bal)
                                     (outputs tx) balance')) txs bal
             = Ok (bal + sumZ (map (fun tx => credit walletAddress tx
                                              - debit walletAddress tx) txs))).
  { induction txs as [|tx txs IH]; intros bal Hres; cbn [reduce].
    - cbn. now rewrite Z.add_0_r.
    - rewrite inputs_pass by (apply Hres; now left). cbn [bind].
      rewrite outputs_pass, IH by (intros t Ht; apply Hres; now right).
      cbn [map]. rewrite sumZ_cons. unfold credit at 2, debit at 2, resolved.
      f_equal. lia. }
  intros txs Hres. rewrite (H txs 0 Hres). reflexivity.
Qed.

(** The balances once a block holding only its coinbase has been mined
    for [miner] on the fresh ledger. *)
Lemma balances_after_first_block (miner : string) (newBlock : Block)
      (walletAddress : string) :
  transactions newBlock = [GenesisTransaction miner MINING_REWARD] ->
  computeBalance (appended fresh newBlock) walletAddress =
  Ok ((if String.eqb walletAddress miner then MINING_REWARD else 0) +
      (if String.eqb walletAddress SATOSHI_NAKAMOTO then MINING_REWARD else 0)).
Proof.
  intros Htx. rewrite computeBalance_spec.
  - unfold appended, fresh, all_transactions. cbn [blocks app flat_map].
    rewrite Htx. cbn [GENESIS_BLOCK transactions app map].
    unfold credit, debit, resolved, GenesisTransaction.
    cbn [inputs outputs flat_map filter map owned recipientAddress amount].
    unfold owned. cbn [recipientAddress].
    rewrite (String.eqb_sym miner walletAddress).
    rewrite (String.eqb_sym "123456" walletAddress).
    change SATOSHI_NAKAMOTO with "123456".
    destruct (String.eqb walletAddress miner);
      destruct (String.eqb walletAddress "123456"); reflexivity.
  - unfold appended, fresh, all_transactions. cbn [blocks app flat_map].
    rewrite Htx. intros tx [<-|[<-|[]]] txin [].
Qed.

(** C7 as stated fails on its last clause: after the first block has
    been mined for the address A, the genesis miner's address holds the
    reward of the genesis block, not 0. *)
Lemma computeBalance_of_genesis_miner_not_zero :
  ~ (forall miner fuel newBlock bc',
        createBlock ToyRSA.verify fuel fresh miner = Some (Ok newBlock, bc') ->
        computeBalance bc' miner = Ok MINING_REWARD /\
        forall other, other <> miner -> computeBalance bc' other = Ok 0).
Proof.
  intros H.
  destruct (H "A" 64%nat honest_block mined (mined_reached ToyRSA.verify)) as [_ Hother].
  specialize (Hother SATOSHI_NAKAMOTO). vm_compute in Hother.
  assert (E : Ok 25 = @Ok Z 0) by (apply Hother; discriminate).
  discriminate E.
Qed.

(** C7, amended: while the amounts on the chain stay within the safe
    integers, [computeBalance] adds, over every transaction of every
    block, the outputs owned by the address and subtracts the resolved
    outputs of the inputs owned by it; and once the first block, holding
    only its coinbase, has been mined for an address on the fresh ledger,
    the balance of that address is MINING_REWARD and the balance of any
    other address is 0, except that the genesis miner's address holds
    MINING_REWARD more, from the coinbase of the genesis block. *)
Theorem computeBalance_walks_chain
        (rsa_verify : string -> string -> Buffer -> result bool) :
  (forall bc walletAddress,
      (forall tx, In tx (all_transactions (blocks bc)) -> resolvable tx) ->
      safe_amounts (all_transactions (blocks bc)) ->
      computeBalance bc walletAddress =
      Ok (sumZ (map (fun tx => credit walletAddress tx - debit walletAddress tx)
                    (all_transactions (blocks bc))))) /\
  (forall miner k pow,
      Block_sha256 (set_nonce (assembled fresh GENESIS_BLOCK miner) (Z.of_nat k)) = Ok pow ->
      isPoWValid pow = true ->
      exists newBlock bc',
        (forall fuel, (k < fuel)%nat ->
                      createBlock rsa_verify fuel fresh miner = Some (Ok newBlock, bc')) /\
        transactions newBlock = [GenesisTransaction miner MINING_REWARD] /\
        (forall walletAddress,
            computeBalance bc' walletAddress =
            Ok ((if String.eqb walletAddress miner then MINING_REWARD else 0) +
                (if String.eqb walletAddress SATOSHI_NAKAMOTO then MINING_REWARD else 0))) /\
        (miner <> SATOSHI_NAKAMOTO -> computeBalance bc' miner = Ok MINING_REWARD) /\
        (forall other, other <> miner -> other <> SATOSHI_NAKAMOTO ->
                       computeBalance bc' other = Ok 0)).
Proof.
  split; [intros bc walletAddress Hres _; now apply computeBalance_spec|].
  intros miner k pow Hsha Hpow.
  destruct (@createBlock_seals rsa_verify fresh miner GENESIS_BLOCK k pow)
    as [n [pow' [_ [_ [_ Hrun]]]]];
    [reflexivity | intros tx [] | exact Hsha | exact Hpow |].
  cbv zeta in Hrun.
  set (newBlock := set_hash (set_nonce (assembled fresh GENESIS_BLOCK miner) n) pow') in *.
  assert (Htx : transactions newBlock = [GenesisTransaction miner MINING_REWARD])
    by reflexivity.
  exists newBlock, (appended fresh newBlock).
  split; [exact Hrun|]. split; [exact Htx|]. split; [|split].
  - intros walletAddress. now apply balances_after_first_block.
  - intros Hne. rewrite (@balances_after_first_block miner newBlock miner Htx).
    rewrite String.eqb_refl.
    destruct (String.eqb_spec miner SATOSHI_NAKAMOTO); [contradiction | reflexivity].
  - intros other Hm Hs. rewrite (@balances_after_first_block miner newBlock other Htx).
    destruct (String.eqb_spec other miner); [contradiction|].
    destruct (String.eqb_spec other SATOSHI_NAKAMOTO); [contradiction | reflexivity].
Qed.

Lemma computeBalance_walks_chain_witness :
  computeBalance mined "A" = Ok MINING_REWARD /\
  computeBalance mined "bob" = Ok 0 /\
  computeBalance mined SATOSHI_NAKAMOTO = Ok MINING_REWARD /\
  safe_amounts (all_transactions (blocks mined)) /\
  computeBalance mined "A" =
  Ok (sumZ (map (fun tx => credit "A" tx - debit "A" tx)
                (all_transactions (blocks mined)))).
Proof.
  destruct (computeBalance_walks_chain ToyRSA.verify) as [Hwalk Hmine].
  assert (Hsafe : safe_amounts (all_transactions (blocks mined)))
    by (vm_compute; discriminate).
  cut (computeBalance mined "A" = Ok MINING_REWARD /\
       computeBalance mined "bob" = Ok 0 /\
       computeBalance mined SATOSHI_NAKAMOTO = Ok MINING_REWARD).
  { intros [H1 [H2 H3]]. repeat (split; [assumption|]).
    apply Hwalk; [|exact Hsafe].
    intros tx [<-|[<-|[]]] txin []. }
  destruct (Hmine "A" 1%nat
              "0335c5d1020d47e6e80e515f0273368794b58a9178bb724a49aeca0b76256bd6")
    as [newBlock [bc' [Hrun [_ [Hall [Hminer Hother]]]]]];
    [vm_compute; reflexivity | vm_compute; reflexivity |].
  pose proof (Hrun 64%nat) as Hrun64.
  rewrite mined_reached in Hrun64.
  assert (E : Some (Ok honest_block, mined) = Some (Ok newBlock, bc'))
    by (apply Hrun64; repeat constructor).
  injection E as _ <-.
  split; [apply Hminer; discriminate|].
  split; [apply Hother; discriminate|].
  rewrite Hall. reflexivity.
Defined.

(* ================================================================== *)
(** ** Transaction verification *)

Lemma every_owner (first : option TransactionInput) (i0 : TransactionInput)
      (o0 : TransactionOutput) :
  first = Some i0 -> parentOutput i0 = Some o0 ->
  forall ins outs,
    map parentOutput ins = map Some outs ->
    every (fun txin =>
             o <- defined (parentOutput txin) ;;
             i <- defined first ;;
             o' <- defined (parentOutput i) ;;
             Ok (String.eqb (recipientAddress o) (recipientAddress o')))
          ins
    = Ok (forallb (fun o => String.eqb (recipientAddress o) (recipientAddress o0)) outs).
Proof.
  intros -> Ho0. induction ins as [|txin ins IH]; intros [|o outs] E;
    try discriminate E; [reflexivity|].
  cbn [map] in E. injection E as Eo E. cbn [every forallb].
  rewrite (IH outs E), Eo. cbn [defined bind]. rewrite Ho0. cbn [defined bind].
  destruct (String.eqb (recipientAddress o) (recipientAddress o0)); reflexivity.
Qed.

Lemma total_in (ins : list TransactionInput) (outs : list TransactionOutput) :
  map parentOutput ins = map Some outs ->
  forall acc,
    reduce (fun sum txin => o <- defined (parentOutput txin) ;; Ok (amount o + sum))
           ins acc
    = Ok (acc + sumZ (map amount outs)).
Proof.
  revert outs. induction ins as [|txin ins IH]; intros [|o outs] E acc;
    try discriminate E; cbn [reduce map].
  - cbn. now rewrite Z.add_0_r.
  - cbn [map] in E. injection E as Eo E. rewrite Eo. cbn [defined bind].
    rewrite (IH outs E). rewrite sumZ_cons. f_equal. lia.
Qed.

Lemma total_out (outs : list TransactionOutput) :
  forall acc,
    fold_left (fun sum txout => amount txout + sum) outs acc
    = acc + sumZ (map amount outs).
Proof.
  induction outs as [|o outs IH]; intros acc; cbn [fold_left map].
  - cbn. now rewrite Z.add_0_r.
  - rewrite IH, sumZ_cons. lia.
Qed.

(** The owner the first check compares every input with: the recipient
    of the output the first input resolves to. *)
Definition first_owner (outs : list TransactionOutput) : string :=
  match outs with
  | o0 :: _ => recipientAddress o0
  | [] => EmptyString
  end.

(** What [Transaction.verify] computes on a transaction that has a wallet
    and whose inputs resolve to the outputs [outs]: it raises what the
    verifier raises, and otherwise answers the conjunction of the three
    checks. *)
Lemma Transaction_verify_eq (rsa_verify : string -> string -> Buffer -> result bool)
      (t : Transaction) (w : Wallet) (outs : list TransactionOutput) :
  wallet t = Some w ->
  map parentOutput (inputs t) = map Some outs ->
  Transaction_verify rsa_verify t =
  (correctSignature <-
     rsa_verify (address w) (Transaction_message t) (signature t) ;;
   Ok (forallb (fun o => String.eqb (recipientAddress o) (first_owner outs)) outs &&
       correctSignature &&
       (sumZ (map amount (outputs t)) <=? sumZ (map amount outs)))).
Proof.
  intros Hw Hres. unfold Transaction_verify, verifySignature.
  assert (Hevery :
            every (fun txin =>
                     o <- defined (parentOutput txin) ;;
                     i0 <- defined (index (inputs t) 0) ;;
                     o0 <- defined (parentOutput i0) ;;
                     Ok (String.eqb (recipientAddress o) (recipientAddress o0)))
                  (inputs t)
            = Ok (forallb (fun o => String.eqb (recipientAddress o) (first_owner outs))
                          outs)).
  { destruct (inputs t) as [|i0 ins] eqn:Ei; destruct outs as [|o0 outs];
      try discriminate Hres; [reflexivity|].
    pose proof Hres as Hres'. cbn [map] in Hres'. injection Hres' as Ho0 _.
    apply (@every_owner (index (i0 :: ins) 0) i0 o0 eq_refl Ho0 (i0 :: ins) (o0 :: outs) Hres). }
  rewrite Hevery. cbn [bind]. rewrite Hw. cbn [defined bind].
  destruct (rsa_verify (address w) (Transaction_message t) (signature t)) as [sig|e];
    cbn [bind]; [|reflexivity].
  rewrite (total_in _ _ Hres), total_out. cbn [bind Z.add]. reflexivity.
Qed.

(** Conservation: a transaction whose outputs sum to more than its
    resolved inputs is never answered true. *)
Lemma Transaction_verify_conservation
      (rsa_verify : string -> string -> Buffer -> result bool)
      (t : Transaction) (w : Wallet) (outs : list TransactionOutput) :
  wallet t = Some w ->
  map parentOutput (inputs t) = map Some outs ->
  sumZ (map amount outs) < sumZ (map amount (outputs t)) ->
  Transaction_verify rsa_verify t =
  (_ <- rsa_verify (address w) (Transaction_message t) (signature t) ;; Ok false).
Proof.
  intros Hw Hres Hlt. rewrite (Transaction_verify_eq rsa_verify t w outs Hw Hres).
  destruct (Z.leb_spec (sumZ (map amount (outputs t))) (sumZ (map amount outs)));
    [lia|].
  destruct (rsa_verify (address w) (Transaction_message t) (signature t)) as [sig|e];
    cbn [bind]; [|reflexivity].
  now rewrite andb_false_r.
Qed.

(** A transaction that spends one output of another transaction,
    whomever that output is addressed to, and pays its amount out. *)
Definition spending (rsa_sign : string -> string -> Buffer) (signer : Wallet)
           (source : Transaction) (idx : Z) (recipient : Address) (value : Z)
  : Transaction :=
  Transaction_new rsa_sign signer
    [mkTransactionInput source idx] [mkTransactionOutput recipient value].

Lemma spending_verifies
      (rsa_sign : string -> string -> Buffer)
      (rsa_verify : string -> string -> Buffer -> result bool)
      (signer : Wallet) (source : Transaction) (idx : Z) (o : TransactionOutput)
      (recipient : Address) :
  index (outputs source) idx = Some o ->
  (forall message,
      rsa_verify (address signer) message (rsa_sign (privateKey signer) message)
      = Ok true) ->
  Transaction_verify rsa_verify
    (spending rsa_sign signer source idx recipient (amount o)) = Ok true.
Proof.
  intros Ho Hsig.
  rewrite (@Transaction_verify_eq rsa_verify
             (spending rsa_sign signer source idx recipient (amount o)) signer [o]
             eq_refl).
  2:{ cbn [spending Transaction_new inputs map]. unfold parentOutput.
      cbn [transaction outputIdx]. now rewrite Ho. }
  unfold spending, Transaction_new, Wallet_sign.
  cbn [signature]. unfold Transaction_message at 1.
  cbn [Transaction_toJson inputs outputs].
  rewrite Hsig. cbn [bind forallb first_owner map amount].
  rewrite String.eqb_refl, Z.leb_refl. reflexivity.
Qed.

(** C4, the code on a transaction whose inputs are not the signer's.
    Whatever the wallet of the signer and whoever else an output of
    another transaction is addressed to, the transaction by which the
    signer spends that output verifies as soon as the signer's own
    signature does: the first check compares the owners of the inputs with
    one another, never with the signer. *)
Theorem Transaction_verify_accepts_foreign_inputs
        (rsa_sign : string -> string -> Buffer)
        (rsa_verify : string -> string -> Buffer -> result bool)
        (signer : Wallet) (source : Transaction) (idx : Z) (o : TransactionOutput) :
  index (outputs source) idx = Some o ->
  recipientAddress o <> address signer ->
  (forall message,
      rsa_verify (address signer) message (rsa_sign (privateKey signer) message)
      = Ok true) ->
  let theft := spending rsa_sign signer source idx (address signer) (amount o) in
  wallet theft = Some signer /\
  map parentOutput (inputs theft) = [Some o] /\
  (forall txin, In txin (inputs theft) ->
     exists o', parentOutput txin = Some o' /\ recipientAddress o' <> address signer) /\
  outputs theft = [mkTransactionOutput (address signer) (amount o)] /\
  Transaction_verify rsa_verify theft = Ok true.
Proof.
  intros Ho Hforeign Hsig theft.
  assert (Hres : map parentOutput (inputs theft) = [Some o]).
  { cbn [theft spending Transaction_new inputs map]. unfold parentOutput.
    cbn [transaction outputIdx]. now rewrite Ho. }
  split; [reflexivity|]. split; [exact Hres|]. split; [|split; [reflexivity|]].
  - intros txin [<-|[]]. exists o. split; [|exact Hforeign].
    unfold parentOutput. cbn [transaction outputIdx]. exact Ho.
  - apply (spending_verifies rsa_sign rsa_verify signer source idx o (address signer) Ho Hsig).
Qed.

(** A wallet that owns nothing spends the coinbase output of the genesis
    block, which is addressed to the genesis miner. *)
Definition thief : Wallet := ToyRSA.wallet_of "0badc0de".

Lemma Transaction_verify_accepts_foreign_inputs_witness :
  Transaction_verify ToyRSA.verify
    (spending ToyRSA.sign thief (GenesisTransaction SATOSHI_NAKAMOTO MINING_REWARD) 0
              (address thief) MINING_REWARD) = Ok true.
Proof.
  apply (Transaction_verify_accepts_foreign_inputs ToyRSA.sign ToyRSA.verify thief
           (GenesisTransaction SATOSHI_NAKAMOTO MINING_REWARD) 0
           (mkTransactionOutput SATOSHI_NAKAMOTO MINING_REWARD)).
  - reflexivity.
  - discriminate.
  - intros message. unfold ToyRSA.verify, ToyRSA.sign.
    cbn [thief ToyRSA.wallet_of address privateKey]. now rewrite String.eqb_refl.
Defined.

(* ================================================================== *)
(** ** Submitting transactions *)

Lemma flat_map_nil {A B : Type} (f : A -> list B) (l : list A) :
  (forall x, In x l -> f x = []) -> flat_map f l = [].
Proof.
  induction l as [|a l IH]; intros H; cbn [flat_map]; [reflexivity|].
  rewrite (H a (or_introl eq_refl)), IH; [reflexivity|].
  intros x Hx. apply H. now right.
Qed.

Lemma findIndex_from_none {A : Type} (f : A -> bool) (l : list A) :
  forall i, (forall x, In x l -> f x = false) -> findIndex_from f l i = -1.
Proof.
  induction l as [|a l IH]; intros i H; cbn [findIndex_from]; [reflexivity|].
  rewrite (H a (or_introl eq_refl)). apply IH. intros x Hx. apply H. now right.
Qed.

(** A sender to whom no output of the chain is addressed gets no input. *)
Lemma collectInputs_nothing_owned (chain : list Block) (sender : Address) :
  (forall tx, In tx (all_transactions chain) ->
              forall o, In o (outputs tx) -> recipientAddress o <> sender) ->
  collectInputs chain sender = [].
Proof.
  intros H. unfold collectInputs. apply flat_map_nil. intros block Hb.
  apply flat_map_nil. intros tx Htx. unfold findIndex.
  rewrite findIndex_from_none; [reflexivity|].
  intros o Ho. apply String.eqb_neq. apply (H tx); [|exact Ho].
  unfold all_transactions. apply in_flat_map. exists block. split; assumption.
Qed.

(** What [submitTransaction] does: nothing but raise when computing the
    balance throws; otherwise it appends to the pool (and to its file) the
    transaction signed by the sender, with the inputs collected and the two
    outputs, the payment and the change. *)
Lemma submitTransaction_eq (rsa_sign : string -> string -> Buffer)
      (bc : Blockchain) (sender : Wallet) (recipient : Address) (value : Z) :
  match computeBalance bc (address sender) with
  | Throw e => submitTransaction rsa_sign bc sender recipient value = (Throw e, bc)
  | Ok balance =>
      let tx := Transaction_new rsa_sign sender
                  (collectInputs (blocks bc) (address sender))
                  [mkTransactionOutput recipient value;
                   mkTransactionOutput (address sender) (Z.abs (balance - value))] in
      submitTransaction rsa_sign bc sender recipient value =
      (Ok tt, mkBlockchain (blocks bc) (transactionPool bc ++ [tx]) (chainFile bc)
                           (Stored (transactionPool bc ++ [tx])))
  end.
Proof.
  unfold submitTransaction. destruct (computeBalance bc (address sender)); reflexivity.
Qed.

(** C10, the code against the conclusion of the claim.  The premise
    holds: while the amounts of the outputs stay within the safe integers,
    a transaction that has a signer, no input and outputs of positive
    total is never answered true by [Transaction.verify], which raises if
    the verifier raises and answers false otherwise; and when no output of
    the chain is addressed to a sender, what [submitTransaction] pools for
    a positive value has no input, is never answered true, and makes
    [createBlock] raise.  The conclusion does not: a signer to whom no
    output of the chain is addressed signs a transaction that spends an
    output addressed to somebody else; it is answered true as soon as the
    signer's signature verifies, and once it is in the pool [createBlock]
    seals it in the next block. *)
Theorem sender_without_outputs_spends_at_mining
        (rsa_sign : string -> string -> Buffer)
        (rsa_verify : string -> string -> Buffer -> result bool) :
  (forall t w,
      wallet t = Some w -> inputs t = [] ->
      0 < sumZ (map amount (outputs t)) ->
      magnitude (outputs t) <= MAX_SAFE_INTEGER ->
      Transaction_verify rsa_verify t =
      (_ <- rsa_verify (address w) (Transaction_message t) (signature t) ;; Ok false)) /\
  (forall bc sender recipient value,
      0 < value ->
      (forall tx, In tx (all_transactions (blocks bc)) ->
                  forall o, In o (outputs tx) -> recipientAddress o <> address sender) ->
      let r := submitTransaction rsa_sign bc sender recipient value in
      (exists e, r = (Throw e, bc)) \/
      (exists tx,
          fst r = Ok tt /\
          transactionPool (snd r) = transactionPool bc ++ [tx] /\
          wallet tx = Some sender /\ inputs tx = [] /\
          Transaction_verify rsa_verify tx <> Ok true /\
          forall fuel miner,
            exists e, createBlock rsa_verify fuel (snd r) miner = Some (Throw e, snd r))) /\
  (forall bc signer source idx o recipient miner last k pow,
      (forall tx, In tx (all_transactions (blocks bc)) ->
                  forall o', In o' (outputs tx) -> recipientAddress o' <> address signer) ->
      In source (all_transactions (blocks bc)) ->
      index (outputs source) idx = Some o ->
      0 < amount o ->
      (forall message,
          rsa_verify (address signer) message (rsa_sign (privateKey signer) message)
          = Ok true) ->
      (forall tx, In tx (transactionPool bc) -> Transaction_verify rsa_verify tx = Ok true) ->
      let theft := spending rsa_sign signer source idx recipient (amount o) in
      let ledger := addToTransactionPool bc theft in
      getLastBlock bc = Some last ->
      Block_sha256 (set_nonce (assembled ledger last miner) (Z.of_nat k)) = Ok pow ->
      isPoWValid pow = true ->
      collectInputs (blocks bc) (address signer) = [] /\
      Transaction_verify rsa_verify theft = Ok true /\
      exists newBlock,
        In theft (transactions newBlock) /\
        forall fuel, (k < fuel)%nat ->
          exists bc',
            createBlock rsa_verify fuel ledger miner = Some (Ok newBlock, bc') /\
            blocks bc' = blocks bc ++ [newBlock]).
Proof.
  assert (Hempty : forall t w,
             wallet t = Some w -> inputs t = [] ->
             0 < sumZ (map amount (outputs t)) ->
             Transaction_verify rsa_verify t =
             (_ <- rsa_verify (address w) (Transaction_message t) (signature t) ;;
              Ok false)).
  { intros t w Hw Hin Hpos.
    apply (Transaction_verify_conservation rsa_verify t w [] Hw).
    - now rewrite Hin.
    - exact Hpos. }
  assert (Hnever : forall t w,
             wallet t = Some w -> inputs t = [] ->
             0 < sumZ (map amount (outputs t)) ->
             Transaction_verify rsa_verify t <> Ok true).
  { intros t w Hw Hin Hpos. rewrite (Hempty t w Hw Hin Hpos).
    destruct (rsa_verify (address w) (Transaction_message t) (signature t));
      discriminate. }
  split; [intros t w Hw Hin Hpos _; now apply Hempty|]. split.
  - intros bc sender recipient value Hvalue Hnone. cbv zeta.
    pose proof (submitTransaction_eq rsa_sign bc sender recipient value) as E.
    destruct (computeBalance bc (address sender)) as [balance|e].
    + right. cbv zeta in E. rewrite E. cbn [fst snd transactionPool].
      rewrite (collectInputs_nothing_owned _ _ Hnone).
      eexists. split; [reflexivity|]. split; [reflexivity|].
      split; [reflexivity|]. split; [reflexivity|].
      assert (Hfalse : Transaction_verify rsa_verify
                         (Transaction_new rsa_sign sender []
                            [mkTransactionOutput recipient value;
                             mkTransactionOutput (address sender)
                                                 (Z.abs (balance - value))])
                       <> Ok true).
      { apply (Hnever _ sender); [reflexivity | reflexivity|].
        cbn [Transaction_new outputs map amount]. rewrite !sumZ_cons.
        cbn [sumZ fold_right]. lia. }
      split; [exact Hfalse|].
      intros fuel miner. eapply createBlock_rejects.
      * cbn [transactionPool]. apply in_or_app. right. left. reflexivity.
      * exact Hfalse.
    + left. exists e. exact E.
  - intros bc signer source idx o recipient miner last k pow
           Hnone Hsource Ho Hpos Hsig Hpool theft ledger Hlast Hsha Hpow.
    assert (Hverify : Transaction_verify rsa_verify theft = Ok true)
      by (apply (spending_verifies rsa_sign rsa_verify signer source idx o recipient Ho Hsig)).
    split; [apply (collectInputs_nothing_owned _ _ Hnone)|]. split; [exact Hverify|].
    destruct (@createBlock_seals rsa_verify ledger miner last k pow)
      as [n [pow' [_ [_ [_ Hrun]]]]]; [exact Hlast | | exact Hsha | exact Hpow |].
    { intros tx Htx. cbn [ledger addToTransactionPool transactionPool] in Htx.
      apply in_app_or in Htx. destruct Htx as [Htx|[<-|[]]];
        [now apply Hpool | exact Hverify]. }
    cbv zeta in Hrun.
    exists (set_hash (set_nonce (assembled ledger last miner) n) pow').
    split.
    + cbn [set_hash set_nonce assembled transactions ledger addToTransactionPool
           transactionPool].
      right. apply in_or_app. right. left. reflexivity.
    + intros fuel Hfuel. eexists. split; [apply (Hrun fuel Hfuel)|]. reflexivity.
Qed.

(** The fresh ledger with, in its pool, the transaction by which the
    wallet [thief], to which nothing is addressed, spends the coinbase
    output of the genesis block. *)
Definition stolen : Blockchain :=
  addToTransactionPool fresh
    (spending ToyRSA.sign thief (GenesisTransaction SATOSHI_NAKAMOTO MINING_REWARD) 0
              (address thief) MINING_REWARD).

Lemma sender_without_outputs_spends_at_mining_witness :
  Transaction_verify ToyRSA.verify
    (Transaction_new ToyRSA.sign thief [] [mkTransactionOutput "carol" 1]) = Ok false /\
  (exists e,
      createBlock ToyRSA.verify 64
        (snd (submitTransaction ToyRSA.sign fresh thief "carol" 1)) "A"
      = Some (Throw e, snd (submitTransaction ToyRSA.sign fresh thief "carol" 1))) /\
  collectInputs (blocks fresh) (address thief) = [] /\
  exists newBlock bc',
    createBlock ToyRSA.verify 64 stolen "A" = Some (Ok newBlock, bc') /\
    blocks bc' = blocks fresh ++ [newBlock] /\
    In (spending ToyRSA.sign thief (GenesisTransaction SATOSHI_NAKAMOTO MINING_REWARD) 0
                 (address thief) MINING_REWARD)
       (transactions newBlock).
Proof.
  destruct (sender_without_outputs_spends_at_mining ToyRSA.sign ToyRSA.verify)
    as [Hverify [Hsubmit Hspend]].
  assert (Hnone : forall tx, In tx (all_transactions (blocks fresh)) ->
                  forall o, In o (outputs tx) -> recipientAddress o <> address thief)
    by (intros tx [<-|[]] o [<-|[]]; discriminate).
  split; [|split].
  - rewrite (Hverify _ thief); [reflexivity | reflexivity | reflexivity | |].
    + vm_compute. reflexivity.
    + vm_compute. discriminate.
  - destruct (Hsubmit fresh thief "carol" 1) as [[e He]|[tx Htx]].
    + lia.
    + exact Hnone.
    + vm_compute in He. discriminate He.
    + destruct Htx as [_ [_ [_ [_ [_ Hcreate]]]]]. apply Hcreate.
  - destruct (Hspend fresh thief (GenesisTransaction SATOSHI_NAKAMOTO MINING_REWARD) 0
                (mkTransactionOutput SATOSHI_NAKAMOTO MINING_REWARD) (address thief) "A"
                GENESIS_BLOCK 0%nat
                "0f5b98df9462bfafd596ec683370c812d1e884f2c9f70e4a6577506cd597b74f")
      as [Hcollect [_ [newBlock [Hin Hrun]]]].
    + exact Hnone.
    + left. reflexivity.
    + reflexivity.
    + reflexivity.
    + intros message. unfold ToyRSA.verify, ToyRSA.sign.
      cbn [thief ToyRSA.wallet_of address privateKey]. now rewrite String.eqb_refl.
    + intros tx [].
    + reflexivity.
    + vm_compute. reflexivity.
    + vm_compute. reflexivity.
    + split; [exact Hcollect|].
      destruct (Hrun 64%nat) as [bc' [Hcreate Hblocks]]; [lia|].
      exists newBlock, bc'. split; [exact Hcreate|]. split; [exact Hblocks | exact Hin].
Defined.

(** Every input [submitTransaction] collects points at the first output
    of its transaction that is addressed to the sender. *)
Lemma collectInputs_first_match (chain : list Block) (sender : Address)
      (txin : TransactionInput) :
  In txin (collectInputs chain sender) ->
  In (transaction txin) (all_transactions chain) /\
  outputIdx txin = findIndex (owned sender) (outputs (transaction txin)).
Proof.
  unfold collectInputs, all_transactions. intros H.
  apply in_flat_map in H. destruct H as [block [Hb H]].
  apply in_flat_map in H. destruct H as [tx [Htx H]].
  fold (owned sender) in H.
  destruct (findIndex (owned sender) (outputs tx) >? -1); [|destruct H].
  destruct H as [<-|[]]. cbn [transaction outputIdx].
  split; [|reflexivity]. apply in_flat_map. exists block. split; assumption.
Qed.

(** *** A payment to oneself *)

(** The genesis miner pays 5 to its own address on the fresh ledger, and
    the block holding the payment is mined for M. *)
Definition self_paying : Blockchain :=
  snd (submitTransaction ToyRSA.sign fresh satoshi SATOSHI_NAKAMOTO 5).

Definition self_payment : Transaction :=
  Transaction_new ToyRSA.sign satoshi
    [mkTransactionInput (GenesisTransaction SATOSHI_NAKAMOTO MINING_REWARD) 0]
    [mkTransactionOutput SATOSHI_NAKAMOTO 5; mkTransactionOutput SATOSHI_NAKAMOTO 20].

Definition self_paid :=
  match createBlock ToyRSA.verify 64 self_paying "M" with
  | Some (_, bc) => bc
  | None => self_paying
  end.

(** C8, the code on a chain where one transaction has two outputs
    addressed to the sender: the payment to oneself was submitted, verified
    and mined; both of its outputs are addressed to the sender, and
    [computeBalance] counts both; but the inputs gathered for the sender's
    next transaction hold its output 0 only, never its output 1. *)
Theorem submitTransaction_collects_first_output_only :
  transactionPool self_paying = [self_payment] /\
  Transaction_verify ToyRSA.verify self_payment = Ok true /\
  all_transactions (blocks self_paid)
    = [GenesisTransaction SATOSHI_NAKAMOTO MINING_REWARD;
       GenesisTransaction "M" MINING_REWARD; self_payment] /\
  index (outputs self_payment) 1 = Some (mkTransactionOutput SATOSHI_NAKAMOTO 20) /\
  computeBalance self_paid SATOSHI_NAKAMOTO = Ok 25 /\
  collectInputs (blocks self_paid) SATOSHI_NAKAMOTO
    = [mkTransactionInput (GenesisTransaction SATOSHI_NAKAMOTO MINING_REWARD) 0;
       mkTransactionInput self_payment 0] /\
  ~ In (mkTransactionInput self_payment 1)
       (collectInputs (blocks self_paid) SATOSHI_NAKAMOTO).
Proof.
  assert (Hcollected :
            collectInputs (blocks self_paid) SATOSHI_NAKAMOTO
            = [mkTransactionInput (GenesisTransaction SATOSHI_NAKAMOTO MINING_REWARD) 0;
               mkTransactionInput self_payment 0])
    by (vm_compute; reflexivity).
  split; [vm_compute; reflexivity|].
  split; [vm_compute; reflexivity|].
  split; [vm_compute; reflexivity|].
  split; [vm_compute; reflexivity|].
  split; [vm_compute; reflexivity|].
  split; [exact Hcollected|].
  rewrite Hcollected.
  intros [H|[H|[]]]; apply (f_equal outputIdx) in H; cbn [outputIdx] in H;
    discriminate H.
Qed.

(* ================================================================== *)
(** * Further properties of the ledger *)

(** ** Digests and the proof-of-work predicate *)

Lemma hex_char_is_hex_digit (d : Z) :
  0 <= d < 16 -> is_hex_digit (SHA256.hex_char d) = true.
Proof.
  intros Hd. replace d with (Z.of_nat (Z.to_nat d)) by lia.
  assert (Hn : (Z.to_nat d < 16)%nat) by lia.
  revert Hn. generalize (Z.to_nat d) as n. intros n Hn.
  do 16 (destruct n as [|n]; [reflexivity|]). lia.
Qed.

Lemma hex_digits_are_hex (n : nat) (x : Z) :
  forallb is_hex_digit (SHA256.hex_digits n x) = true /\
  List.length (SHA256.hex_digits n x) = n.
Proof.
  induction n as [|n [IH1 IH2]]; cbn [SHA256.hex_digits forallb List.length];
    [split; reflexivity|].
  rewrite IH1, IH2, hex_char_is_hex_digit; [split; reflexivity|].
  change 15 with (Z.ones 4). rewrite Z.land_ones by lia.
  apply Z.mod_pos_bound. lia.
Qed.

Lemma string_of_list_length (l : list ascii) :
  String.length (string_of_list_ascii l) = List.length l.
Proof. induction l as [|c l IH]; cbn; [reflexivity | now rewrite IH]. Qed.

(** A digest is always a well-formed hash. *)
Lemma sha256_well_formed (message : string) : well_formed_hash (sha256 message) = true.
Proof.
  unfold well_formed_hash, sha256, SHA256.hexdigest.
  rewrite string_of_list_length, list_ascii_of_string_of_list_ascii.
  unfold SHA256.digest_words. cbv zeta. cbn [flat_map].
  rewrite !forallb_app, !length_app. cbn [forallb List.length].
  repeat rewrite (proj1 (hex_digits_are_hex 8 _)).
  repeat rewrite (proj2 (hex_digits_are_hex 8 _)).
  reflexivity.
Qed.

(** The body of the [try] of [isPoWValid] on a non-empty string of
    hexadecimal digits: it does not throw. *)
Lemma isPoWValid_try_hex (pow : string) :
  pow <> EmptyString ->
  forallb is_hex_digit (list_ascii_of_string pow) = true ->
  isPoWValid_try pow = Ok (hex_number (list_ascii_of_string pow) <=? LIMIT).
Proof.
  intros Hne Hhex. unfold isPoWValid_try, BigNumber_new at 1.
  pose proof (normalised_pow pow) as E.
  rewrite (parse_decimal_0x _ _ E), (parse_hex_0x _ _ E).
  rewrite (hash_digits_of_hex_string pow Hhex).
  destruct pow as [|c pow]; [now elim Hne|].
  cbn [list_ascii_of_string] in *.
  rewrite hex_digits_value_spec, Hhex.
  fold (hex_number (c :: list_ascii_of_string pow)).
  rewrite TARGET_toString_value. cbn [bind].
  unfold lessThanOrEqualTo, LIMIT. cbn [coefficient exponent].
  change (Z.min 0 60) with 0. change (0 - 0) with 0. change (60 - 0) with 60.
  rewrite Z.pow_0_r, Z.mul_1_r. reflexivity.
Qed.

(** X1: whatever is hashed, the digest is a well-formed hash of 64
    hexadecimal digits, so on a digest the body of [isPoWValid] never
    throws: the handler of its [catch] is not what decides the loop of
    [mine] or the check of [Blockchain.verify]; the comparison of the
    number the digest denotes with the bound is. *)
Theorem isPoWValid_on_digests (message : string) :
  well_formed_hash (sha256 message) = true /\
  isPoWValid_try (sha256 message) =
    Ok (hex_number (list_ascii_of_string (sha256 message)) <=? LIMIT) /\
  isPoWValid (sha256 message) =
    (hex_number (list_ascii_of_string (sha256 message)) <=? LIMIT).
Proof.
  pose proof (sha256_well_formed message) as Hwf.
  split; [exact Hwf|].
  unfold well_formed_hash in Hwf. apply andb_true_iff in Hwf. destruct Hwf as [Hlen Hhex].
  assert (Hne : sha256 message <> EmptyString).
  { intros E. rewrite E in Hlen. discriminate Hlen. }
  pose proof (isPoWValid_try_hex _ Hne Hhex) as Htry.
  split; [exact Htry|]. unfold isPoWValid. rewrite Htry. reflexivity.
Qed.

(** The value of a run of digits, one digit at a time. *)
Lemma hex_number_fold (ds : list ascii) :
  forall acc,
    fold_left (fun a c => 16 * a + match hex_value c with Some d => d | None => 0 end)
              ds acc
    = acc * 16 ^ Z.of_nat (List.length ds) + hex_number ds.
Proof.
  unfold hex_number.
  induction ds as [|c ds IH]; intros acc; cbn [fold_left List.length].
  - change (Z.of_nat 0) with 0. lia.
  - rewrite IH, (IH (16 * 0 + _)). rewrite Nat2Z.inj_succ, Z.pow_succ_r by lia. lia.
Qed.

Lemma hex_number_cons (c : ascii) (ds : list ascii) :
  hex_number (c :: ds)
  = match hex_value c with Some d => d | None => 0 end * 16 ^ Z.of_nat (List.length ds)
    + hex_number ds.
Proof.
  unfold hex_number at 1. cbn [fold_left]. rewrite hex_number_fold. lia.
Qed.

Lemma hex_value_range (c : ascii) (d : Z) : hex_value c = Some d -> 0 <= d < 16.
Proof.
  unfold hex_value.
  destruct (Nat.leb 48 (nat_of_ascii c) && Nat.leb (nat_of_ascii c) 57) eqn:E1.
  { apply andb_true_iff in E1. destruct E1 as [H1 H2].
    apply Nat.leb_le in H1. apply Nat.leb_le in H2. intros E. injection E as <-. lia. }
  destruct (Nat.leb 97 (nat_of_ascii c) && Nat.leb (nat_of_ascii c) 102) eqn:E2.
  { apply andb_true_iff in E2. destruct E2 as [H1 H2].
    apply Nat.leb_le in H1. apply Nat.leb_le in H2. intros E. injection E as <-. lia. }
  destruct (Nat.leb 65 (nat_of_ascii c) && Nat.leb (nat_of_ascii c) 70) eqn:E3.
  { apply andb_true_iff in E3. destruct E3 as [H1 H2].
    apply Nat.leb_le in H1. apply Nat.leb_le in H2. intros E. injection E as <-. lia. }
  discriminate.
Qed.

Lemma hex_number_range (ds : list ascii) :
  0 <= hex_number ds < 16 ^ Z.of_nat (List.length ds).
Proof.
  induction ds as [|c ds IH].
  - cbn. lia.
  - rewrite hex_number_cons. cbn [List.length]. rewrite Nat2Z.inj_succ, Z.pow_succ_r by lia.
    assert (0 <= match hex_value c with Some d => d | None => 0 end < 16).
    { destruct (hex_value c) as [d|] eqn:E; [eapply hex_value_range; eassumption | lia]. }
    nia.
Qed.

Lemma hex_value_zero (c : ascii) : hex_value c = Some 0 -> c = "0"%char.
Proof.
  unfold hex_value.
  destruct (Nat.leb 48 (nat_of_ascii c) && Nat.leb (nat_of_ascii c) 57) eqn:E1.
  { intros E. injection E as E. rewrite <- (ascii_nat_embedding c).
    replace (nat_of_ascii c) with 48%nat by lia. reflexivity. }
  destruct (Nat.leb 97 (nat_of_ascii c) && Nat.leb (nat_of_ascii c) 102) eqn:E2.
  { apply andb_true_iff in E2. destruct E2 as [H1 _]. apply Nat.leb_le in H1.
    intros E. injection E as E. lia. }
  destruct (Nat.leb 65 (nat_of_ascii c) && Nat.leb (nat_of_ascii c) 70) eqn:E3.
  { apply andb_true_iff in E3. destruct E3 as [H1 _]. apply Nat.leb_le in H1.
    intros E. injection E as E. lia. }
  discriminate.
Qed.

(** X2: what the difficulty asks of a well-formed hash.  A hash that
    [isPoWValid] accepts starts with the digit 0 (its four leading bits
    are zero), and a hash that starts with two digits 0 is accepted; in
    between, hashes that start with a single 0 are compared with the
    bound. *)
Theorem isPoWValid_leading_zero (pow : string) :
  well_formed_hash pow = true ->
  (isPoWValid pow = true -> exists rest, pow = String "0" rest) /\
  (forall rest, pow = String "0" (String "0" rest) -> isPoWValid pow = true).
Proof.
  intros Hwf. unfold well_formed_hash in Hwf.
  apply andb_true_iff in Hwf. destruct Hwf as [Hlen Hhex]. apply Nat.eqb_eq in Hlen.
  assert (Hne : pow <> EmptyString) by (intros ->; discriminate Hlen).
  assert (Heq : isPoWValid pow = (hex_number (list_ascii_of_string pow) <=? LIMIT)).
  { unfold isPoWValid. rewrite (isPoWValid_try_hex pow Hne Hhex). reflexivity. }
  rewrite Heq. split.
  - destruct pow as [|c rest]; [now elim Hne|]. intros Hle. apply Z.leb_le in Hle.
    exists rest. f_equal.
    cbn [list_ascii_of_string] in Hle, Hhex. rewrite hex_number_cons in Hle.
    cbn [forallb] in Hhex. apply andb_true_iff in Hhex. destruct Hhex as [Hc _].
    unfold is_hex_digit in Hc. destruct (hex_value c) as [d|] eqn:Ed; [|discriminate Hc].
    pose proof (hex_value_range c d Ed) as Hd.
    pose proof (hex_number_range (list_ascii_of_string rest)) as Hr.
    assert (Hl : List.length (list_ascii_of_string rest) = 63%nat).
    { cbn [String.length] in Hlen. injection Hlen as Hlen.
      rewrite <- Hlen. clear. induction rest as [|a rest IH]; cbn; congruence. }
    rewrite Hl in Hle, Hr. change (Z.of_nat 63) with 63 in Hle, Hr.
    apply hex_value_zero. rewrite Ed. f_equal.
    unfold LIMIT in Hle. lia.
  - intros rest ->. apply Z.leb_le.
    cbn [list_ascii_of_string]. rewrite !hex_number_cons.
    change (hex_value "0") with (Some 0).
    pose proof (hex_number_range (list_ascii_of_string rest)) as Hr.
    assert (Hl : List.length (list_ascii_of_string rest) = 62%nat).
    { cbn [String.length] in Hlen. injection Hlen as Hlen.
      rewrite <- Hlen. clear. induction rest as [|a rest IH]; cbn; congruence. }
    rewrite Hl in Hr. change (Z.of_nat 62) with 62 in Hr.
    unfold LIMIT. lia.
Qed.

Lemma isPoWValid_leading_zero_witness :
  (isPoWValid hash_of_TARGET = true -> exists rest, hash_of_TARGET = String "0" rest) /\
  isPoWValid "0000000000000000000000000000000000000000000000000000000000000001" = true.
Proof.
  split.
  - apply (isPoWValid_leading_zero hash_of_TARGET). reflexivity.
  - eapply (isPoWValid_leading_zero
              "0000000000000000000000000000000000000000000000000000000000000001");
      reflexivity.
Defined.

(** X3: on strings of hexadecimal digits [isPoWValid] only depends on the
    number denoted: a [0x] in front changes nothing, and when a number is
    accepted every smaller one is, whatever the lengths of the strings. *)
Theorem isPoWValid_by_value (pow1 pow2 : string) :
  pow1 <> EmptyString -> pow2 <> EmptyString ->
  forallb is_hex_digit (list_ascii_of_string pow1) = true ->
  forallb is_hex_digit (list_ascii_of_string pow2) = true ->
  isPoWValid ("0x" +++ pow1) = isPoWValid pow1 /\
  (hex_number (list_ascii_of_string pow1) <= hex_number (list_ascii_of_string pow2) ->
   isPoWValid pow2 = true -> isPoWValid pow1 = true).
Proof.
  intros Hne1 Hne2 Hhex1 Hhex2.
  assert (H1 : isPoWValid pow1 = (hex_number (list_ascii_of_string pow1) <=? LIMIT)).
  { unfold isPoWValid. rewrite (isPoWValid_try_hex pow1 Hne1 Hhex1). reflexivity. }
  assert (H2 : isPoWValid pow2 = (hex_number (list_ascii_of_string pow2) <=? LIMIT)).
  { unfold isPoWValid. rewrite (isPoWValid_try_hex pow2 Hne2 Hhex2). reflexivity. }
  split.
  - rewrite H1, isPoWValid_eq.
    assert (Hd : hash_digits ("0x" +++ pow1) = list_ascii_of_string pow1).
    { unfold hash_digits. cbn [String.append list_ascii_of_string]. reflexivity. }
    rewrite Hd. destruct pow1 as [|c pow1]; [now elim Hne1|].
    cbn [list_ascii_of_string] in *. cbv beta iota zeta. rewrite Hhex1. reflexivity.
  - rewrite H1, H2. intros Hle Hv. apply Z.leb_le in Hv. apply Z.leb_le. lia.
Qed.

Lemma isPoWValid_by_value_witness :
  isPoWValid "0xabc" = isPoWValid "abc" /\ isPoWValid "00ff" = true.
Proof.
  split.
  - apply (isPoWValid_by_value "abc" "abc"); [discriminate | discriminate | reflexivity..].
  - apply (isPoWValid_by_value "00ff" "abc");
      [discriminate | discriminate | reflexivity | reflexivity | vm_compute; discriminate
      | reflexivity].
Defined.

(* ================================================================== *)
(** ** The mining loop *)

(** The loop only returns a block for the first nonce, from [start] on,
    whose digest passes. *)
Lemma mine_loop_sound (fuel : nat) (b : Block) :
  forall start b',
    mine_loop fuel b start = Some (Ok b') ->
    exists n pow,
      start <= n /\
      b' = set_hash (set_nonce b n) pow /\
      Block_sha256 (set_nonce b n) = Ok pow /\
      isPoWValid pow = true /\
      forall m, start <= m < n ->
                exists p, Block_sha256 (set_nonce b m) = Ok p /\ isPoWValid p = false.
Proof.
  induction fuel as [|fuel IH]; intros start b' H; cbn [mine_loop] in H; [discriminate H|].
  destruct (Block_sha256 (set_nonce b start)) as [pow|e] eqn:Es; [|discriminate H].
  destruct (isPoWValid pow) eqn:Ev.
  - injection H as <-. exists start, pow.
    split; [lia|]. split; [reflexivity|]. split; [exact Es|]. split; [exact Ev|].
    intros m Hm. lia.
  - destruct (IH (start + 1) b' H) as [n [pow' [Hn [Hb [Hs [Hv Hmin]]]]]].
    exists n, pow'. split; [lia|]. split; [exact Hb|]. split; [exact Hs|].
    split; [exact Hv|].
    intros m Hm. destruct (Z.eq_dec m start) as [->|Hne].
    + exists pow. split; assumption.
    + apply Hmin. lia.
Qed.

(** Once the loop has returned, more fuel changes nothing. *)
Lemma mine_loop_more_fuel (fuel : nat) (b : Block) :
  forall start r fuel',
    mine_loop fuel b start = Some r -> (fuel <= fuel')%nat ->
    mine_loop fuel' b start = Some r.
Proof.
  induction fuel as [|fuel IH]; intros start r fuel' H Hle; cbn [mine_loop] in H;
    [discriminate H|].
  destruct fuel' as [|fuel']; [lia|]. cbn [mine_loop].
  destruct (Block_sha256 (set_nonce b start)) as [pow|e]; [|exact H].
  destruct (isPoWValid pow); [exact H|].
  apply (IH _ _ _ H). lia.
Qed.

(** X4: when [mine] returns, the block it leaves carries the least nonce,
    counting from 0, whose digest passes [isPoWValid], and that digest as
    its hash; the digest is the one of the block with that nonce and with
    the hash it had before, and nothing else in the block has changed;
    with more fuel the result is the same. *)
Theorem mine_finds_least_nonce (fuel : nat) (b b' : Block) :
  mine fuel b = Some (Ok b') ->
  exists n pow,
    0 <= n /\
    nonce b' = Some n /\ hash b' = Some pow /\
    Block_sha256 (set_nonce b n) = Ok pow /\
    isPoWValid pow = true /\
    (forall m, 0 <= m < n ->
               exists p, Block_sha256 (set_nonce b m) = Ok p /\ isPoWValid p = false) /\
    transactions b' = transactions b /\ ancestor b' = ancestor b /\
    minerAddress b' = minerAddress b /\ blockNumber b' = blockNumber b /\
    validTransaction b' = validTransaction b /\ isGenesisBlock b' = isGenesisBlock b /\
    forall fuel', (fuel <= fuel')%nat -> mine fuel' b = Some (Ok b').
Proof.
  unfold mine. intros H.
  destruct (mine_loop_sound fuel b 0 b' H) as [n [pow [Hn [-> [Hs [Hv Hmin]]]]]].
  exists n, pow. repeat split; try assumption; try reflexivity.
  intros fuel' Hle. now apply (mine_loop_more_fuel fuel b 0 _ fuel').
Qed.

Lemma mine_finds_least_nonce_witness :
  exists pow, hash GENESIS_BLOCK = Some pow /\ isPoWValid pow = true.
Proof.
  destruct (mine_finds_least_nonce 64
              (mkBlock [GenesisTransaction SATOSHI_NAKAMOTO MINING_REWARD] None
                       SATOSHI_NAKAMOTO None None 0 true true)
              GENESIS_BLOCK)
    as [n [pow [_ [_ [Hh [_ [Hv _]]]]]]]; [vm_compute; reflexivity|].
  exists pow. split; assumption.
Defined.

Lemma mine_loop_genesis_never_throws (fuel : nat) (b : Block) :
  isGenesisBlock b = true ->
  forall start e, mine_loop fuel b start <> Some (Throw e).
Proof.
  intros Hg. induction fuel as [|fuel IH]; intros start e; cbn [mine_loop];
    [discriminate|].
  unfold Block_sha256 at 1, Block_toJson, set_nonce at 1. cbn [isGenesisBlock].
  rewrite Hg. cbn [bind].
  match goal with |- context [isPoWValid ?p] => destruct (isPoWValid p) end;
    [discriminate | apply IH].
Qed.

(** X5: a [Block] that is not a [GenesisBlock] cannot be built without an
    ancestor: when the transactions given all verify, the constructor
    starts mining, [toJson] reads [this.ancestor.hash] and the constructor
    raises a TypeError at the first digest, while the constructor of
    [GenesisBlock], whose [toJson] does not read the ancestor, never
    raises. *)
Theorem Block_new_needs_ancestor
        (rsa_verify : string -> string -> Buffer -> result bool)
        (fuel : nat) (txs : list Transaction) (miner : string) :
  (forall tx, In tx txs -> Transaction_verify rsa_verify tx = Ok true) ->
  Block_new rsa_verify (S fuel) txs None miner false = Some (Throw "TypeError") /\
  (forall e, GenesisBlock_new rsa_verify fuel miner <> Some (Throw e)).
Proof.
  intros Hall. split.
  - unfold Block_new. apply every_true_iff in Hall. rewrite Hall. reflexivity.
  - intros e. unfold GenesisBlock_new, Block_new, mine. cbn [every].
    apply mine_loop_genesis_never_throws. reflexivity.
Qed.

Lemma Block_new_needs_ancestor_witness :
  Block_new ToyRSA.verify 1 (transactionPool paying) None "A" false
  = Some (Throw "TypeError").
Proof.
  apply (Block_new_needs_ancestor ToyRSA.verify 0 (transactionPool paying) "A").
  intros tx [<-|[]]. vm_compute. reflexivity.
Defined.

(* ================================================================== *)
(** ** What validation asks of the second block *)

(** What [createBlock] has done when it returns a block. *)
Lemma createBlock_Ok_inv (rsa_verify : string -> string -> Buffer -> result bool)
      (fuel : nat) (bc : Blockchain) (miner : string) (newBlock : Block)
      (bc' : Blockchain) :
  createBlock rsa_verify fuel bc miner = Some (Ok newBlock, bc') ->
  bc' = appended bc newBlock /\
  (forall tx, In tx (transactionPool bc) -> Transaction_verify rsa_verify tx = Ok true) /\
  transactions newBlock = GenesisTransaction miner MINING_REWARD :: transactionPool bc /\
  ancestor newBlock = getLastBlock bc /\
  blockNumber newBlock =
    match getLastBlock bc with Some last => blockNumber last + 1 | None => 0 end.
Proof.
  unfold createBlock, Block_new.
  destruct (every (Transaction_verify rsa_verify) (transactionPool bc)) as [[|]|e] eqn:Ee;
    cbn [validTransaction negb]; try discriminate.
  destruct (mine fuel _) as [[b|e]|] eqn:Em; try discriminate.
  pose proof Em as Em'. unfold mine in Em'.
  apply mine_loop_sound in Em'. destruct Em' as [n [pow [_ [-> _]]]].
  cbn [validTransaction set_hash set_nonce negb]. intros H. injection H as <- <-.
  split; [reflexivity|]. split; [now apply every_true_iff|]. repeat split.
Qed.

(** X6: the first block a node mines breaks its own chain.  On a ledger
    whose chain is one valid block, the block [createBlock] appends stores
    as ancestor hash the hash of the genesis block, the digest taken
    before that hash was set, while [Blockchain.verify] compares it with
    [sha256()] of the sealed genesis block, whose JSON now holds the hash:
    the chain of two blocks fails validation, whatever the miner, the pool
    and the nonce found. *)
Theorem first_mined_block_fails_verify
        (rsa_verify : string -> string -> Buffer -> result bool)
        (fuel : nat) (bc : Blockchain) (miner : string) (first newBlock : Block)
        (bc' : Blockchain) :
  blocks bc = [first] ->
  verify (blocks bc) = true ->
  createBlock rsa_verify fuel bc miner = Some (Ok newBlock, bc') ->
  blocks bc' = [first; newBlock] /\
  ancestorHash newBlock = hash GENESIS_BLOCK /\
  verify (blocks bc') = false.
Proof.
  intros Hb Hv Hc. apply createBlock_Ok_inv in Hc.
  destruct Hc as [-> [_ [_ [Ha _]]]].
  assert (Hlast : getLastBlock bc = Some first) by (unfold getLastBlock; now rewrite Hb).
  rewrite Hlast in Ha.
  assert (Hg : deepEqual first GENESIS_BLOCK = true).
  { rewrite Hb in Hv. apply verify_iff in Hv. destruct Hv as [[f [Hf Hg]] _].
    injection Hf as <-. exact Hg. }
  destruct (deepEqual_genesis_fields first Hg) as [_ [_ [Hh _]]].
  assert (Hanc : ancestorHash newBlock = hash GENESIS_BLOCK).
  { unfold ancestorHash. rewrite Ha. exact Hh. }
  unfold appended. cbn [blocks]. rewrite Hb. cbn [app].
  split; [reflexivity|]. split; [exact Hanc|].
  apply not_true_is_false. intros Htrue.
  apply verify_second_block in Htrue. destruct Htrue as [_ [Hseal _]].
  rewrite Hanc in Hseal. discriminate Hseal.
Qed.

Lemma first_mined_block_fails_verify_witness : verify (blocks mined) = false.
Proof.
  apply (first_mined_block_fails_verify ToyRSA.verify 64 fresh "A"
           GENESIS_BLOCK honest_block mined);
    [reflexivity | vm_compute; reflexivity | apply mined_reached].
Defined.

(** X7: and then any peer that still is at the genesis block takes the
    mined block away.  After [createBlock] has succeeded on a ledger whose
    chain was one valid block, [consensus] on the single candidate made of
    the genesis block adopts it, although it is shorter than the local
    chain: the local chain is back to one block and the block mined is
    gone. *)
Theorem consensus_drops_first_mined_block
        (rsa_verify : string -> string -> Buffer -> result bool)
        (fuel : nat) (bc : Blockchain) (miner : string) (first newBlock : Block)
        (bc' : Blockchain) :
  blocks bc = [first] ->
  verify (blocks bc) = true ->
  createBlock rsa_verify fuel bc miner = Some (Ok newBlock, bc') ->
  len (blocks bc') = 2 /\
  consensus bc' [[GENESIS_BLOCK]] =
    (true, mkBlockchain [GENESIS_BLOCK] [] (Stored [GENESIS_BLOCK]) (Stored [])).
Proof.
  intros Hb Hv Hc.
  assert (Hbad : verify (blocks bc') = false /\ blocks bc' = [first; newBlock]).
  { pose proof Hc as Hc'. apply createBlock_Ok_inv in Hc'.
    destruct Hc' as [-> [_ [_ [Ha _]]]].
    assert (Hlast : getLastBlock bc = Some first) by (unfold getLastBlock; now rewrite Hb).
    rewrite Hlast in Ha. unfold appended. cbn [blocks]. rewrite Hb. cbn [app].
    split; [|reflexivity].
    apply not_true_is_false. intros Htrue.
    apply verify_second_block in Htrue. destruct Htrue as [_ [Hseal _]].
    rewrite Hb in Hv. apply verify_iff in Hv. destruct Hv as [[f [Hf Hg]] _].
    injection Hf as <-.
    destruct (deepEqual_genesis_fields first Hg) as [_ [_ [Hh _]]].
    unfold ancestorHash in Hseal. rewrite Ha, Hh in Hseal. discriminate Hseal. }
  destruct Hbad as [Hbad Hblocks].
  split; [rewrite Hblocks; reflexivity|].
  apply createBlock_Ok_inv in Hc. destruct Hc as [Hbc' _].
  destruct (consensus_cases bc' [[GENESIS_BLOCK]]) as [[_ H]|[c [E [Hin _]]]].
  - destruct (H [GENESIS_BLOCK] (or_introl eq_refl)) as [_ Hlocal];
      [vm_compute; reflexivity | congruence].
  - destruct Hin as [<-|[]]. rewrite E. subst bc'. reflexivity.
Qed.

Lemma consensus_drops_first_mined_block_witness :
  consensus mined [[GENESIS_BLOCK]] =
    (true, mkBlockchain [GENESIS_BLOCK] [] (Stored [GENESIS_BLOCK]) (Stored [])).
Proof.
  apply (consensus_drops_first_mined_block ToyRSA.verify 64 fresh "A"
           GENESIS_BLOCK honest_block mined);
    [reflexivity | vm_compute; reflexivity | apply mined_reached].
Defined.

(** X8: a chain whose first block is an object of class [Block], not
    [GenesisBlock], passes validation only when it is that block alone,
    deep-equal to the genesis block: with any further block, [sha256()] of
    the first block reads the hash of an ancestor it does not have, and
    the handler answers false. *)
Theorem verify_needs_GenesisBlock_object (first : Block) (rest : list Block) :
  isGenesisBlock first = false ->
  verify [first] = deepEqual first GENESIS_BLOCK /\
  (rest <> [] -> verify (first :: rest) = false).
Proof.
  intros Hclass. split.
  - unfold verify, verify_try. destruct (deepEqual first GENESIS_BLOCK); reflexivity.
  - destruct rest as [|second rest]; [intros H; now elim H|]. intros _.
    apply not_true_is_false. intros Htrue.
    apply verify_second_block in Htrue. destruct Htrue as [Hg _]. congruence.
Qed.

Lemma verify_needs_GenesisBlock_object_witness :
  verify [set_hash (mkBlock (transactions GENESIS_BLOCK) None SATOSHI_NAKAMOTO
                            (Some 8) None 0 true false)
                   "0546c0e8ed686ba5b4e984766aeb92f7a635a52371579501d5982adaf8b62a37";
          forged_block] = false.
Proof.
  apply verify_needs_GenesisBlock_object; [reflexivity | discriminate].
Defined.

(** Validation of a chain validates its non-empty beginnings. *)
Lemma verify_from_app (rest more : list Block) :
  forall i previous,
    verify_from i previous (rest ++ more) = Ok tt -> verify_from i previous rest = Ok tt.
Proof.
  induction rest as [|b rest IH]; intros i previous H; [reflexivity|].
  cbn [app] in H. apply verify_from_cons in H. destruct H as [Hok Hrest].
  apply verify_from_cons. split; [exact Hok | now apply IH].
Qed.

(** X9: validation is closed under taking beginnings: when a chain passes
    [Blockchain.verify], so does what is left of it once blocks are cut
    off its end, as long as one block is left; so a valid chain was valid
    at every height on the way. *)
Theorem verify_prefix (chain more : list Block) :
  chain <> [] -> verify (chain ++ more) = true -> verify chain = true.
Proof.
  intros Hne H. destruct chain as [|first rest]; [now elim Hne|].
  apply verify_try_true in H. apply verify_try_true.
  cbn [app verify_try] in *.
  destruct (deepEqual first GENESIS_BLOCK); cbn [negb] in *; [|discriminate H].
  destruct (verify_from 1 first (rest ++ more)) as [[]|e] eqn:E; [|discriminate H].
  rewrite (verify_from_app rest more 1 first E). reflexivity.
Qed.

Lemma verify_prefix_witness : verify [GENESIS_BLOCK] = true.
Proof.
  apply (verify_prefix [GENESIS_BLOCK] [forged_block]);
    [discriminate | exact forged_chain_passes_verify].
Defined.

(* ================================================================== *)
(** ** What validation does not look at *)

(** A transaction without its wallet and its signature, and a block in
    which no transaction has them any more, and neither the miner address
    nor the flag [validTransaction] is kept. *)
Definition unsigned (t : Transaction) : Transaction :=
  mkTransaction None (inputs t) (outputs t) EmptyString.

Definition stripped (b : Block) : Block :=
  mkBlock (map unsigned (transactions b)) (ancestor b) EmptyString (nonce b) (hash b)
          (blockNumber b) false (isGenesisBlock b).

Lemma Block_sha256_stripped (b : Block) : Block_sha256 (stripped b) = Block_sha256 b.
Proof.
  unfold Block_sha256, Block_toJson, stripped.
  cbn [isGenesisBlock ancestor nonce hash blockNumber transactions].
  rewrite map_map. reflexivity.
Qed.

Lemma verify_from_stripped (rest : list Block) :
  forall i previous previous',
    Block_sha256 previous' = Block_sha256 previous ->
    verify_from i previous' (map stripped rest) = verify_from i previous rest.
Proof.
  induction rest as [|current rest IH]; intros i previous previous' Hp; [reflexivity|].
  cbn [map verify_from]. rewrite Hp, Block_sha256_stripped.
  change (blockNumber (stripped current)) with (blockNumber current).
  change (ancestor (stripped current)) with (ancestor current).
  rewrite (IH (i + 1) current (stripped current) (Block_sha256_stripped current)).
  reflexivity.
Qed.

(** X10: [Blockchain.verify] never verifies a transaction.  Its answer is
    the same when, in every block after the first, the wallet and the
    signature of every transaction are erased, the miner address is
    blanked and [validTransaction] is cleared, everything else in the
    blocks being left as it is. *)
Theorem verify_ignores_signatures (first : Block) (rest : list Block) :
  verify (first :: map stripped rest) = verify (first :: rest).
Proof.
  unfold verify, verify_try.
  rewrite (verify_from_stripped rest 1 first first eq_refl). reflexivity.
Qed.

(* ================================================================== *)
(** ** Consensus, again *)

(** X11: [consensus] settles at once: run a second time on the same
    candidates, whatever the first run did, it adopts nothing and leaves
    the ledger as the first run left it. *)
Theorem consensus_idempotent (bc : Blockchain) (blockchains : list (list Block)) :
  consensus (snd (consensus bc blockchains)) blockchains
  = (false, snd (consensus bc blockchains)).
Proof.
  destruct (consensus_cases bc blockchains) as [[E H]|[c [E [Hin [Hv [Hmax _]]]]]];
    rewrite E; cbn [snd].
  - exact E.
  - destruct (consensus_cases (mkBlockchain c (transactionPool bc) (Stored c) (txpoolFile bc))
                              blockchains)
      as [[E' _]|[c' [_ [Hin' [Hv' [_ Hwhy]]]]]]; [exact E'|].
    cbn [blocks] in Hwhy. specialize (Hmax c' Hin' Hv').
    destruct Hwhy as [Hlt|Hbad]; [lia | congruence].
Qed.

(** The scan, with the place of the candidate it ends on: every valid
    candidate before it is strictly shorter. *)
Lemma consensus_scan_first (rest : list (list Block)) :
  forall i maxLength best,
    let r := consensus_scan rest i maxLength best in
    r = (maxLength, best) \/
    (exists k c,
        nth_error rest k = Some c /\ snd r = i + Z.of_nat k /\
        verify c = true /\ len c = fst r /\ maxLength < fst r /\
        forall j c', (j < k)%nat -> nth_error rest j = Some c' ->
                     verify c' = true -> len c' < fst r).
Proof.
  induction rest as [|candidate rest IH]; intros i maxLength best; cbn [consensus_scan].
  - left. reflexivity.
  - destruct (Z.leb_spec (len candidate) maxLength) as [Hle|Hgt].
    + destruct (IH (i + 1) maxLength best) as [E|[k [c [Hk [Hb [Hv [Hl [Hm H]]]]]]]].
      * left. exact E.
      * right. exists (S k), c. repeat split; try assumption; [lia|].
        intros [|j] c' Hj Hc' Hv'.
        -- injection Hc' as <-. lia.
        -- apply (H j c'); [lia | exact Hc' | exact Hv'].
    + destruct (verify candidate) eqn:Ev.
      * destruct (IH (i + 1) (len candidate) i) as [E|[k [c [Hk [Hb [Hv [Hl [Hm H]]]]]]]].
        -- right. exists 0%nat, candidate. rewrite E. cbn [fst snd nth_error].
           repeat split; try assumption; try lia.
        -- right. exists (S k), c. repeat split; try assumption; try lia.
           intros [|j] c' Hj Hc' Hv'.
           ++ injection Hc' as <-. lia.
           ++ apply (H j c'); [lia | exact Hc' | exact Hv'].
      * destruct (IH (i + 1) maxLength best) as [E|[k [c [Hk [Hb [Hv [Hl [Hm H]]]]]]]].
        -- left. exact E.
        -- right. exists (S k), c. repeat split; try assumption; [lia|].
           intros [|j] c' Hj Hc' Hv'.
           ++ injection Hc' as <-. congruence.
           ++ apply (H j c'); [lia | exact Hc' | exact Hv'].
Qed.

(** X12: among valid candidates of the same greatest length [consensus]
    takes the first: when it adopts, the new chain stands at some place of
    the list of candidates, and every valid candidate before that place is
    strictly shorter. *)
Theorem consensus_adopts_first_longest (bc : Blockchain)
        (blockchains : list (list Block)) :
  fst (consensus bc blockchains) = true ->
  exists k,
    nth_error blockchains k = Some (blocks (snd (consensus bc blockchains))) /\
    forall j c', (j < k)%nat -> nth_error blockchains j = Some c' ->
                 verify c' = true ->
                 len c' < len (blocks (snd (consensus bc blockchains))).
Proof.
  unfold consensus.
  destruct (consensus_scan_first blockchains 0 0 (-1))
    as [E|[k [c [Hk [Hb [Hv [Hl [Hm H]]]]]]]]; cbv zeta in *.
  - rewrite E. cbn [Z.eqb negb andb fst]. discriminate.
  - destruct (consensus_scan blockchains 0 0 (-1)) as [maxLength best].
    cbn [fst snd] in *. subst best.
    destruct (negb (0 + Z.of_nat k =? -1) &&
              ((maxLength >? len (blocks bc)) || negb (verify (blocks bc))));
      cbn [fst snd]; [|discriminate].
    intros _. exists k. cbn [Z.add]. rewrite Nat2Z.id.
    cbn [save blocks]. rewrite (nth_error_nth _ _ _ Hk).
    split; [exact Hk|]. rewrite Hl. exact H.
Qed.

Lemma consensus_adopts_first_longest_witness :
  exists k,
    nth_error [[GENESIS_BLOCK]; [GENESIS_BLOCK; forged_block]] k
    = Some (blocks (snd (consensus fresh [[GENESIS_BLOCK]; [GENESIS_BLOCK; forged_block]]))).
Proof.
  destruct (consensus_adopts_first_longest fresh
              [[GENESIS_BLOCK]; [GENESIS_BLOCK; forged_block]])
    as [k [Hk _]]; [vm_compute; reflexivity|].
  exists k. exact Hk.
Defined.

(* ================================================================== *)
(** ** An invariant of the ledger *)

(** The chain starts with a block that deep-equals the genesis block, and
    the block at index [i] has the number [i]. *)
Definition well_numbered (chain : list Block) : Prop :=
  forall i b, index chain i = Some b -> blockNumber b = i.

Definition chain_invariant (chain : list Block) : Prop :=
  (exists first, index chain 0 = Some first /\ deepEqual first GENESIS_BLOCK = true) /\
  well_numbered chain.

Lemma index_in_range {A : Type} (l : list A) (i : Z) (x : A) :
  index l i = Some x -> 0 <= i < len l.
Proof.
  intros H. apply index_Some_nat in H. destruct H as [Hi H].
  assert (Z.to_nat i < List.length l)%nat by (apply nth_error_Some; congruence).
  unfold len. lia.
Qed.

Lemma verify_chain_invariant (chain : list Block) :
  verify chain = true -> chain_invariant chain.
Proof.
  intros H. apply verify_iff in H. destruct H as [[first [Hf Hg]] Hstep].
  split; [exists first; split; assumption|].
  intros i b Hb. pose proof (index_in_range chain i b Hb) as Hi.
  destruct (Z.eq_dec i 0) as [->|Hne].
  - rewrite Hf in Hb. injection Hb as <-.
    now destruct (deepEqual_genesis_fields first Hg) as [_ [_ [_ Hn]]].
  - destruct (index chain (i - 1)) as [p|] eqn:Ep.
    + now destruct (Hstep i p b) as [Hn _]; [lia | exact Ep | exact Hb|].
    + unfold index in Ep. destruct (Z.ltb_spec (i - 1) 0) as [Hlt|Hge]; [lia|].
      apply nth_error_None in Ep. unfold len in Hi. lia.
Qed.

Lemma index_app_last {A : Type} (l : list A) (x : A) (i : Z) (y : A) :
  index (l ++ [x]) i = Some y ->
  index l i = Some y \/ (i = len l /\ y = x).
Proof.
  intros H. pose proof (index_in_range _ _ _ H) as Hi.
  unfold len in Hi. rewrite length_app in Hi. cbn [List.length] in Hi.
  unfold index in *. destruct (Z.ltb_spec i 0) as [Hlt|Hge]; [lia|].
  destruct (Nat.lt_ge_cases (Z.to_nat i) (List.length l)) as [Hin|Hout].
  - left. now rewrite nth_error_app1 in H.
  - right. rewrite nth_error_app2 in H by exact Hout.
    replace (Z.to_nat i - List.length l)%nat with 0%nat in H by lia.
    injection H as <-. unfold len. split; [lia | reflexivity].
Qed.

Lemma index_app_first {A : Type} (l m : list A) (x : A) :
  index l 0 = Some x -> index (l ++ m) 0 = Some x.
Proof. destruct l as [|a l]; [discriminate | intros H; exact H]. Qed.

Lemma getLastBlock_numbered (bc : Blockchain) :
  chain_invariant (blocks bc) ->
  exists last, getLastBlock bc = Some last /\ blockNumber last = len (blocks bc) - 1.
Proof.
  intros [[first [Hf _]] Hnum]. unfold getLastBlock.
  destruct (index (blocks bc) (len (blocks bc) - 1)) as [last|] eqn:E.
  - exists last. split; [reflexivity | now apply Hnum].
  - exfalso. pose proof (index_in_range _ _ _ Hf) as Hlen.
    unfold index in E. destruct (Z.ltb_spec (len (blocks bc) - 1) 0) as [Hlt|Hge]; [lia|].
    apply nth_error_None in E. unfold len in *. lia.
Qed.

Section Reachability.

Variable rsa_sign : string -> string -> Buffer.
Variable rsa_verify : string -> string -> Buffer -> result bool.

(** The states of a ledger: what the constructor returns, on any two
    files, and what the public methods make of a state, whatever their
    arguments and whether they return or raise. *)
Inductive reachable : Blockchain -> Prop :=
| reach_new (chain_file : File (list Block)) (txpool_file : File (list Transaction))
            (bc : Blockchain) :
    Blockchain_new chain_file txpool_file = Ok bc -> reachable bc
| reach_submit (bc : Blockchain) (w : Wallet) (recipient : Address) (value : Z) :
    reachable bc ->
    reachable (snd (submitTransaction rsa_sign bc w recipient value))
| reach_create (bc : Blockchain) (fuel : nat) (miner : string)
               (outcome : result Block) (bc' : Blockchain) :
    reachable bc ->
    createBlock rsa_verify fuel bc miner = Some (outcome, bc') -> reachable bc'
| reach_consensus (bc : Blockchain) (blockchains : list (list Block)) :
    reachable bc -> reachable (snd (consensus bc blockchains)).

Lemma createBlock_keeps_invariant (fuel : nat) (bc : Blockchain) (miner : string)
      (outcome : result Block) (bc' : Blockchain) :
  chain_invariant (blocks bc) ->
  createBlock rsa_verify fuel bc miner = Some (outcome, bc') ->
  chain_invariant (blocks bc').
Proof.
  intros Hinv Hc. destruct outcome as [newBlock|e].
  - apply createBlock_Ok_inv in Hc. destruct Hc as [-> [_ [_ [_ Hn]]]].
    destruct (getLastBlock_numbered bc Hinv) as [last [Hlast Hnum]].
    rewrite Hlast in Hn. destruct Hinv as [[first [Hf Hg]] Hwn].
    unfold appended. cbn [blocks]. split.
    + exists first. split; [now apply index_app_first | exact Hg].
    + intros i b Hb. apply index_app_last in Hb. destruct Hb as [Hb|[-> ->]].
      * now apply Hwn.
      * lia.
  - assert (bc' = bc); [|now subst].
    unfold createBlock in Hc.
    destruct (Block_new rsa_verify fuel (transactionPool bc) (getLastBlock bc) miner false)
      as [[b|e']|]; [|congruence|discriminate].
    destruct (negb (validTransaction b)); [congruence | discriminate].
Qed.

(** X13: in every state the ledger can reach, through its constructor and
    any sequence of [submitTransaction], [createBlock] and [consensus],
    returning or raising, the chain is not empty, its first block
    deep-equals the genesis block, and the block at index [i] carries the
    block number [i]; in particular [getLastBlock] always finds a block. *)
Theorem reachable_chain_invariant (bc : Blockchain) :
  reachable bc ->
  (exists first, index (blocks bc) 0 = Some first /\
                 deepEqual first GENESIS_BLOCK = true) /\
  (forall i b, index (blocks bc) i = Some b -> blockNumber b = i) /\
  (exists last, getLastBlock bc = Some last /\ blockNumber last = len (blocks bc) - 1).
Proof.
  intros H.
  assert (Hinv : chain_invariant (blocks bc)).
  { induction H as [cf pf bc Hnew | bc w r v _ IH | bc fuel miner out bc' _ IH Hc
                    | bc cs _ IH].
    - unfold Blockchain_new in Hnew.
      destruct (load cf) as [chain|e] eqn:El; [|discriminate Hnew].
      cbn [bind] in Hnew. injection Hnew as <-. cbn [blocks].
      apply verify_chain_invariant. unfold load in El.
      destruct cf as [| |stored].
      + destruct (verify [GENESIS_BLOCK]) eqn:Ev; [|discriminate El].
        injection El as <-. exact Ev.
      + discriminate El.
      + destruct (verify stored) eqn:Ev; [|discriminate El].
        injection El as <-. exact Ev.
    - unfold submitTransaction. destruct (computeBalance bc (address w)); exact IH.
    - exact (createBlock_keeps_invariant fuel bc miner out bc' IH Hc).
    - destruct (consensus_cases bc cs) as [[E _]|[c [E [_ [Hv _]]]]]; rewrite E; cbn [snd].
      + exact IH.
      + cbn [blocks]. now apply verify_chain_invariant. }
  destruct Hinv as [Hfirst Hnum].
  split; [exact Hfirst|]. split; [exact Hnum|].
  apply getLastBlock_numbered. split; assumption.
Qed.

End Reachability.

Lemma reachable_chain_invariant_witness :
  exists last, getLastBlock mined = Some last /\ blockNumber last = 1.
Proof.
  destruct (reachable_chain_invariant ToyRSA.sign ToyRSA.verify mined) as [_ [_ H]].
  - apply (reach_create ToyRSA.sign ToyRSA.verify fresh 64 "A" (Ok honest_block) mined).
    + apply (reach_new ToyRSA.sign ToyRSA.verify Missing Missing). vm_compute. reflexivity.
    + apply mined_reached.
  - exact H.
Defined.

(* ================================================================== *)
(** ** Inputs that do not resolve *)

Definition unresolved (tx : Transaction) : Prop :=
  exists txin, In txin (inputs tx) /\ parentOutput txin = None.

Lemma resolvable_or_unresolved (tx : Transaction) : resolvable tx \/ unresolved tx.
Proof.
  unfold resolvable, unresolved. induction (inputs tx) as [|txin ins IH].
  - left. intros txin [].
  - destruct (parentOutput txin) as [o|] eqn:Eo.
    + destruct IH as [IH|[t [Ht Hn]]].
      * left. intros t [<-|Ht]; [congruence | now apply IH].
      * right. exists t. split; [now right | exact Hn].
    + right. exists txin. split; [now left | exact Eo].
Qed.

Lemma resolvable_outs (tx : Transaction) :
  resolvable tx -> map parentOutput (inputs tx) = map Some (resolved tx).
Proof.
  unfold resolvable, resolved. induction (inputs tx) as [|txin ins IH]; intros H;
    [reflexivity|].
  cbn [map flat_map]. destruct (parentOutput txin) as [o|] eqn:Eo.
  - cbn [app map]. f_equal. apply IH. intros t Ht. apply H. now right.
  - elim (H txin (or_introl eq_refl)). exact Eo.
Qed.

Lemma sum_step_throws {B : Type} (step : B -> TransactionOutput -> B)
      (ins : list TransactionInput) :
  (exists txin, In txin ins /\ parentOutput txin = None) ->
  forall acc,
    reduce (fun acc txin => o <- defined (parentOutput txin) ;; Ok (step acc o)) ins acc
    = Throw "TypeError".
Proof.
  induction ins as [|txin ins IH]; intros [t [Ht Hn]] acc; [destruct Ht|].
  cbn [reduce]. destruct (parentOutput txin) as [o|] eqn:Eo; cbn [defined bind].
  - apply IH. destruct Ht as [<-|Ht]; [congruence|]. exists t. split; assumption.
  - reflexivity.
Qed.

Lemma computeBalance_throws (bc : Blockchain) (walletAddress : string) :
  (exists tx, In tx (all_transactions (blocks bc)) /\ unresolved tx) ->
  computeBalance bc walletAddress = Throw "TypeError".
Proof.
  unfold computeBalance. rewrite concat_transactions. cbn [app].
  generalize (all_transactions (blocks bc)) as txs. intros txs.
  generalize 0 as bal. induction txs as [|tx txs IH]; intros bal [t [Ht Hu]];
    [destruct Ht|].
  cbn [reduce].
  destruct (resolvable_or_unresolved tx) as [Hres|Hun].
  - rewrite (inputs_pass walletAddress (inputs tx) bal Hres). cbn [bind].
    apply IH. destruct Ht as [<-|Ht].
    + destruct Hu as [txin [Hin Hn]]. elim (Hres txin Hin). exact Hn.
    + exists t. split; assumption.
  - rewrite (sum_step_throws
               (fun bal o => if String.eqb (recipientAddress o) walletAddress
                             then bal - amount o else bal) (inputs tx) Hun bal).
    reflexivity.
Qed.

Lemma computeBalance_Ok_resolvable (bc : Blockchain) (walletAddress : string) (z : Z) :
  computeBalance bc walletAddress = Ok z ->
  forall tx, In tx (all_transactions (blocks bc)) -> resolvable tx.
Proof.
  intros H tx Htx. destruct (resolvable_or_unresolved tx) as [Hres|Hun]; [exact Hres|].
  rewrite (computeBalance_throws bc walletAddress) in H; [discriminate H|].
  exists tx. split; assumption.
Qed.

(** X14: [computeBalance] raises exactly when some input of some
    transaction of the chain points at no output of the transaction it
    names (an index out of range); it then raises a TypeError whatever the
    address asked for, so one such input makes every balance of the ledger
    unavailable, and [submitTransaction] raise for every sender. *)
Theorem computeBalance_raises_iff
        (rsa_sign : string -> string -> Buffer)
        (bc : Blockchain) (walletAddress : string) :
  ((exists e, computeBalance bc walletAddress = Throw e) <->
   (exists tx txin, In tx (all_transactions (blocks bc)) /\
                    In txin (inputs tx) /\ parentOutput txin = None)) /\
  ((exists e, computeBalance bc walletAddress = Throw e) ->
   forall other : Wallet,
     computeBalance bc (address other) = Throw "TypeError" /\
     forall recipient value,
       submitTransaction rsa_sign bc other recipient value = (Throw "TypeError", bc)).
Proof.
  assert (Hiff : (exists e, computeBalance bc walletAddress = Throw e) <->
                 (exists tx txin, In tx (all_transactions (blocks bc)) /\
                                  In txin (inputs tx) /\ parentOutput txin = None)).
  { split.
    - intros [e He].
      assert (Hsome : ~ (forall tx, In tx (all_transactions (blocks bc)) -> resolvable tx)).
      { intros Hall. rewrite (computeBalance_spec bc walletAddress Hall) in He.
        discriminate He. }
      revert Hsome. generalize (all_transactions (blocks bc)) as txs.
      induction txs as [|tx txs IH]; intros Hsome.
      + elim Hsome. intros tx [].
      + destruct (resolvable_or_unresolved tx) as [Hres|[txin [Hin Hn]]].
        * destruct IH as [t [ti [Ht Hti]]].
          { intros Hall. apply Hsome. intros t [<-|Ht]; [exact Hres | now apply Hall]. }
          exists t, ti. split; [now right | exact Hti].
        * exists tx, txin. split; [now left|]. split; assumption.
    - intros [tx [txin [Htx [Hin Hn]]]]. exists "TypeError".
      apply computeBalance_throws. exists tx. split; [exact Htx|].
      exists txin. split; assumption. }
  split; [exact Hiff|].
  intros Hthrow other. apply Hiff in Hthrow. destruct Hthrow as [tx [txin [Htx [Hin Hn]]]].
  assert (Hother : computeBalance bc (address other) = Throw "TypeError").
  { apply computeBalance_throws. exists tx. split; [exact Htx|].
    exists txin. split; assumption. }
  split; [exact Hother|].
  intros recipient value. unfold submitTransaction. rewrite Hother. reflexivity.
Qed.

(** A ledger whose chain is the genesis block and a block with a
    transaction whose input names output 7 of a coinbase transaction. *)
Definition dangling : Blockchain :=
  mkBlockchain
    [GENESIS_BLOCK;
     mkBlock [mkTransaction (Some satoshi)
                [mkTransactionInput (GenesisTransaction SATOSHI_NAKAMOTO MINING_REWARD) 7]
                [] EmptyString]
             (Some GENESIS_BLOCK) "M" (Some 0) None 1 true false]
    [] Missing Missing.

Lemma computeBalance_raises_iff_witness :
  computeBalance dangling "bob" = Throw "TypeError" /\
  submitTransaction ToyRSA.sign dangling satoshi "bob" 1 = (Throw "TypeError", dangling).
Proof.
  destruct (computeBalance_raises_iff ToyRSA.sign dangling "anyone") as [_ H].
  destruct (H (ex_intro _ "TypeError" eq_refl) (ToyRSA.wallet_of "bob")) as [Hb _].
  destruct (H (ex_intro _ "TypeError" eq_refl) satoshi) as [_ Hs].
  split; [exact Hb | apply Hs].
Defined.

Lemma sumZ_map_app {A : Type} (f : A -> Z) (l1 l2 : list A) :
  sumZ (map f (l1 ++ l2)) = sumZ (map f l1) + sumZ (map f l2).
Proof.
  induction l1 as [|x l1 IH]; cbn [app map]; [cbn; lia|].
  rewrite !sumZ_cons, IH. lia.
Qed.

(** A transaction that [Transaction.verify] answers, true or false, has
    inputs that all resolve. *)
Lemma Transaction_verify_Ok_resolvable
      (rsa_verify : string -> string -> Buffer -> result bool) (t : Transaction) (b : bool) :
  Transaction_verify rsa_verify t = Ok b -> resolvable t.
Proof.
  intros H. destruct (resolvable_or_unresolved t) as [Hres|Hun]; [exact Hres|].
  exfalso. unfold Transaction_verify in H.
  destruct (every _ (inputs t)) as [same|e]; [|discriminate H]. cbn [bind] in H.
  destruct (wallet t) as [w|]; [|discriminate H]. cbn [defined bind] in H.
  destruct (verifySignature rsa_verify (address w) (Transaction_message t) (signature t))
    as [sig|e]; [|discriminate H]. cbn [bind] in H.
  rewrite (sum_step_throws (fun sum o => amount o + sum) (inputs t) Hun 0) in H.
  discriminate H.
Qed.

Lemma coinbase_net (walletAddress miner : string) (reward : Z) :
  credit walletAddress (GenesisTransaction miner reward)
  - debit walletAddress (GenesisTransaction miner reward)
  = if String.eqb walletAddress miner then reward else 0.
Proof.
  unfold credit, debit, resolved, GenesisTransaction.
  cbn [inputs outputs flat_map filter]. unfold owned. cbn [recipientAddress].
  rewrite (String.eqb_sym miner walletAddress).
  destruct (String.eqb walletAddress miner); cbn; lia.
Qed.

(** X15: how mining moves a balance.  When [computeBalance] answers [B]
    for an address and [createBlock] then returns a block, and the amounts
    on the new chain stay within the safe integers, the balance of the
    address on the new ledger is [B], plus the reward if the address is
    the miner's, plus, for every transaction that was in the pool, the
    outputs addressed to it minus the resolved inputs it owned. *)
Theorem computeBalance_after_createBlock
        (rsa_verify : string -> string -> Buffer -> result bool)
        (fuel : nat) (bc : Blockchain) (miner : string) (newBlock : Block)
        (bc' : Blockchain) (walletAddress : string) (B : Z) :
  computeBalance bc walletAddress = Ok B ->
  createBlock rsa_verify fuel bc miner = Some (Ok newBlock, bc') ->
  safe_amounts (all_transactions (blocks bc')) ->
  computeBalance bc' walletAddress =
  Ok (B + (if String.eqb walletAddress miner then MINING_REWARD else 0)
        + sumZ (map (fun tx => credit walletAddress tx - debit walletAddress tx)
                    (transactionPool bc))).
Proof.
  intros HB Hc _. apply createBlock_Ok_inv in Hc. destruct Hc as [-> [Hall [Htx _]]].
  pose proof (computeBalance_Ok_resolvable bc walletAddress B HB) as Hres.
  rewrite (computeBalance_spec bc walletAddress Hres) in HB. injection HB as <-.
  assert (Hall' : all_transactions (blocks (appended bc newBlock))
                  = all_transactions (blocks bc)
                    ++ GenesisTransaction miner MINING_REWARD :: transactionPool bc).
  { unfold appended, all_transactions. cbn [blocks].
    rewrite flat_map_app. cbn [flat_map]. now rewrite Htx, app_nil_r. }
  rewrite computeBalance_spec.
  - rewrite Hall', sumZ_map_app. cbn [map]. rewrite sumZ_cons, coinbase_net.
    f_equal. lia.
  - rewrite Hall'. intros tx Hin. apply in_app_or in Hin.
    destruct Hin as [Hin|[<-|Hin]].
    + now apply Hres.
    + intros txin [].
    + apply (Transaction_verify_Ok_resolvable rsa_verify tx true). now apply Hall.
Qed.

(** The ledger [paying] once its pool has been mined for A. *)
Definition paid_block :=
  match createBlock ToyRSA.verify 2 paying "A" with
  | Some (Ok b, _) => b
  | _ => GENESIS_BLOCK
  end.

Definition paid :=
  match createBlock ToyRSA.verify 2 paying "A" with
  | Some (_, bc) => bc
  | None => paying
  end.

Lemma paid_reached : createBlock ToyRSA.verify 2 paying "A" = Some (Ok paid_block, paid).
Proof. vm_compute. reflexivity. Qed.

Lemma computeBalance_after_createBlock_witness :
  safe_amounts (all_transactions (blocks paid)) /\
  computeBalance paid SATOSHI_NAKAMOTO = Ok 15 /\ computeBalance paid "bob" = Ok 10.
Proof.
  assert (Hsafe : safe_amounts (all_transactions (blocks paid)))
    by (vm_compute; discriminate).
  split; [exact Hsafe|]. split.
  - rewrite (computeBalance_after_createBlock ToyRSA.verify 2 paying "A" paid_block paid
               SATOSHI_NAKAMOTO 25);
      [reflexivity | reflexivity | exact paid_reached | exact Hsafe].
  - rewrite (computeBalance_after_createBlock ToyRSA.verify 2 paying "A" paid_block paid
               "bob" 0);
      [reflexivity | reflexivity | exact paid_reached | exact Hsafe].
Defined.

(* ================================================================== *)
(** ** The inputs of a submitted transaction *)

(** [findIndex] answers -1 when no element passes the test, and else the
    index of the first element that does. *)
Lemma findIndex_from_spec {A : Type} (f : A -> bool) (l : list A) :
  forall i0,
    0 <= i0 ->
    (findIndex_from f l i0 = -1 /\ forall x, In x l -> f x = false) \/
    (exists k x,
        findIndex_from f l i0 = i0 + Z.of_nat k /\
        nth_error l k = Some x /\ f x = true /\
        forall j y, (j < k)%nat -> nth_error l j = Some y -> f y = false).
Proof.
  induction l as [|a l IH]; intros i0 H0; cbn [findIndex_from].
  - left. split; [reflexivity | intros x []].
  - destruct (f a) eqn:Ea.
    + right. exists 0%nat, a.
      split; [lia|]. split; [reflexivity|]. split; [exact Ea|]. intros j y Hj. lia.
    + destruct (IH (i0 + 1)) as [[E Hall]|[k [x [E [Hk [Hx Hmin]]]]]]; [lia| |].
      * left. split; [exact E|]. intros x [<-|Hx]; [exact Ea | now apply Hall].
      * right. exists (S k), x. split; [lia|]. split; [exact Hk|]. split; [exact Hx|].
        intros [|j] y Hj Hy; [injection Hy as <-; exact Ea|].
        apply (Hmin j y); [lia | exact Hy].
Qed.

Lemma findIndex_found {A : Type} (f : A -> bool) (l : list A) :
  (findIndex f l >? -1) = existsb f l.
Proof.
  unfold findIndex.
  destruct (findIndex_from_spec f l 0) as [[E Hall]|[k [x [E [Hk [Hx _]]]]]]; [lia| |].
  - rewrite E. symmetry. apply not_true_is_false. intros Hex.
    apply existsb_exists in Hex. destruct Hex as [x [Hin Hx]].
    rewrite (Hall x Hin) in Hx. discriminate Hx.
  - rewrite E. transitivity true.
    + apply Z.gtb_lt. lia.
    + symmetry. apply existsb_exists. exists x. split; [|exact Hx].
      eapply nth_error_In. exact Hk.
Qed.

Lemma flat_map_step {A B : Type} (g : A -> list B) (x : A) (l : list A) :
  flat_map g (x :: l) = g x ++ flat_map g l.
Proof. reflexivity. Qed.

(** The inputs gathered from a list of transactions. *)
Lemma collectInputs_block (sender : Address) (txs : list Transaction) :
  map transaction
      (flat_map (fun tx =>
                   let idx := findIndex (fun txout => String.eqb (recipientAddress txout) sender)
                                        (outputs tx) in
                   if idx >? -1 then [mkTransactionInput tx idx] else []) txs)
  = filter (fun tx => existsb (owned sender) (outputs tx)) txs.
Proof.
  induction txs as [|tx txs IH]; [reflexivity|].
  rewrite flat_map_step, map_app, IH. cbn [filter]. cbv zeta.
  fold (owned sender). rewrite findIndex_found.
  destruct (existsb (owned sender) (outputs tx)); reflexivity.
Qed.

Lemma collectInputs_resolve (chain : list Block) (sender : Address)
      (txin : TransactionInput) :
  In txin (collectInputs chain sender) ->
  exists o,
    parentOutput txin = Some o /\ recipientAddress o = sender /\
    forall j o', 0 <= j < outputIdx txin ->
                 index (outputs (transaction txin)) j = Some o' ->
                 recipientAddress o' <> sender.
Proof.
  intros Hin. destruct (collectInputs_first_match chain sender txin Hin) as [_ Hidx].
  unfold findIndex in Hidx.
  destruct (findIndex_from_spec (owned sender) (outputs (transaction txin)) 0)
    as [[E Hall]|[k [o [E [Hk [Ho Hmin]]]]]]; [lia| |].
  - exfalso. unfold collectInputs in Hin.
    apply in_flat_map in Hin. destruct Hin as [block [_ Hin]].
    apply in_flat_map in Hin. destruct Hin as [tx [_ Hin]].
    fold (owned sender) in Hin. cbv zeta in Hin.
    destruct (findIndex (owned sender) (outputs tx) >? -1) eqn:Eg; [|destruct Hin].
    destruct Hin as [<-|[]]. cbn [transaction] in E.
    unfold findIndex in Eg. rewrite E in Eg. discriminate Eg.
  - exists o. rewrite E in Hidx. cbn [Z.add] in Hidx.
    unfold parentOutput. rewrite Hidx, index_nat.
    split; [exact Hk|]. split; [now apply String.eqb_eq|].
    intros j o' Hj Ho'. apply index_Some_nat in Ho'. destruct Ho' as [_ Ho'].
    apply String.eqb_neq. apply (Hmin (Z.to_nat j) o'); [lia | exact Ho'].
Qed.

(** X16: the inputs [submitTransaction] gathers, exactly.  There is one
    input for each transaction of the chain, in chain order, that has an
    output addressed to the sender, and none for the others; each input
    resolves to an output addressed to the sender, the first such output
    of its transaction. *)
Theorem collectInputs_characterised (chain : list Block) (sender : Address) :
  map transaction (collectInputs chain sender)
  = filter (fun tx => existsb (owned sender) (outputs tx)) (all_transactions chain) /\
  (forall txin,
      In txin (collectInputs chain sender) ->
      exists o,
        parentOutput txin = Some o /\ recipientAddress o = sender /\
        forall j o', 0 <= j < outputIdx txin ->
                     index (outputs (transaction txin)) j = Some o' ->
                     recipientAddress o' <> sender).
Proof.
  split; [|apply collectInputs_resolve].
  unfold collectInputs, all_transactions.
  induction chain as [|block chain IH]; [reflexivity|].
  rewrite !flat_map_step, map_app, filter_app, IH. f_equal.
  apply collectInputs_block.
Qed.

(* ================================================================== *)
(** ** Verifying what was submitted *)

Lemma resolved_owned (sender : Address) (ins : list TransactionInput) :
  (forall txin, In txin ins ->
                exists o, parentOutput txin = Some o /\ recipientAddress o = sender) ->
  exists outs,
    map parentOutput ins = map Some outs /\
    forall o, In o outs -> recipientAddress o = sender.
Proof.
  induction ins as [|txin ins IH]; intros H.
  - exists []. split; [reflexivity | intros o []].
  - destruct (H txin (or_introl eq_refl)) as [o [Ho Hs]].
    destruct IH as [outs [Hm Hall]]; [intros t Ht; apply H; now right|].
    exists (o :: outs). split; [cbn [map]; now rewrite Ho, Hm|].
    intros o' [<-|Ho']; [exact Hs | now apply Hall].
Qed.

Lemma same_owner_check (sender : Address) (outs : list TransactionOutput) :
  (forall o, In o outs -> recipientAddress o = sender) ->
  forallb (fun o => String.eqb (recipientAddress o) (first_owner outs)) outs = true.
Proof.
  intros H. apply forallb_forall. intros o Ho. apply String.eqb_eq.
  rewrite (H o Ho). destruct outs as [|o0 outs]; [destruct Ho|].
  cbn [first_owner]. symmetry. apply H. now left.
Qed.

(** The transaction built from the inputs gathered for its signer: the
    first check of [Transaction.verify] passes, whatever its outputs. *)
Lemma gathered_transaction_verify
      (rsa_sign : string -> string -> Buffer)
      (rsa_verify : string -> string -> Buffer -> result bool)
      (chain : list Block) (sender : Wallet) (txOutputs : list TransactionOutput) :
  let tx := Transaction_new rsa_sign sender (collectInputs chain (address sender))
                            txOutputs in
  exists outs,
    map parentOutput (inputs tx) = map Some outs /\
    (forall o, In o outs -> recipientAddress o = address sender) /\
    Transaction_verify rsa_verify tx =
    (correctSignature <-
       rsa_verify (address sender) (Transaction_message tx) (signature tx) ;;
     Ok (correctSignature &&
         (sumZ (map amount txOutputs) <=? sumZ (map amount outs)))).
Proof.
  cbv zeta.
  destruct (resolved_owned (address sender) (collectInputs chain (address sender)))
    as [outs [Hm Hall]].
  { intros txin Hin.
    destruct (collectInputs_resolve chain (address sender) txin Hin) as [o [Ho [Hs _]]].
    exists o. split; assumption. }
  exists outs. split; [exact Hm|]. split; [exact Hall|].
  rewrite (Transaction_verify_eq rsa_verify
             (Transaction_new rsa_sign sender (collectInputs chain (address sender))
                              txOutputs)
             sender outs eq_refl Hm).
  rewrite (same_owner_check (address sender) outs Hall). reflexivity.
Qed.

(** X17: what decides the fate of a submitted transaction.  When the
    balance of the sender can be computed, the amounts stay within the
    safe integers and the verifier accepts the signatures the sender's key
    makes, the transaction [submitTransaction] pools passes the ownership
    and the signature checks of [Transaction.verify] by construction, and
    it verifies exactly when [value + |balance - value|] is at most the
    sum of the outputs gathered as inputs: all the first outputs addressed
    to the sender, spent already or not. *)
Theorem submitted_transaction_verification
        (rsa_sign : string -> string -> Buffer)
        (rsa_verify : string -> string -> Buffer -> result bool)
        (bc : Blockchain) (sender : Wallet) (recipient : Address) (value B : Z) :
  computeBalance bc (address sender) = Ok B ->
  safe_amounts (all_transactions (blocks bc)) ->
  Z.abs value + Z.abs (B - value) <= MAX_SAFE_INTEGER ->
  (forall message,
      rsa_verify (address sender) message (rsa_sign (privateKey sender) message)
      = Ok true) ->
  let tx := Transaction_new rsa_sign sender
              (collectInputs (blocks bc) (address sender))
              [mkTransactionOutput recipient value;
               mkTransactionOutput (address sender) (Z.abs (B - value))] in
  submitTransaction rsa_sign bc sender recipient value
    = (Ok tt, addToTransactionPool bc tx) /\
  exists outs,
    map parentOutput (inputs tx) = map Some outs /\
    (forall o, In o outs -> recipientAddress o = address sender) /\
    Transaction_verify rsa_verify tx =
      Ok (value + Z.abs (B - value) <=? sumZ (map amount outs)).
Proof.
  intros HB _ _ Hsig tx.
  split; [unfold submitTransaction; rewrite HB; reflexivity|].
  destruct (gathered_transaction_verify rsa_sign rsa_verify (blocks bc) sender
              [mkTransactionOutput recipient value;
               mkTransactionOutput (address sender) (Z.abs (B - value))])
    as [outs [Hm [Hall Hv]]].
  exists outs. split; [exact Hm|]. split; [exact Hall|].
  unfold tx. rewrite Hv. unfold Transaction_new at 2, Wallet_sign. cbn [signature].
  unfold Transaction_message at 1. cbn [Transaction_toJson inputs outputs Transaction_new].
  unfold Transaction_message in Hsig. cbn [Transaction_toJson inputs outputs].
  rewrite Hsig. cbn [bind andb map amount]. rewrite !sumZ_cons.
  cbn [sumZ fold_right]. rewrite Z.add_0_r. reflexivity.
Qed.

Lemma submitted_transaction_verification_witness :
  safe_amounts (all_transactions (blocks fresh)) /\
  exists outs,
    map parentOutput
        (inputs (Transaction_new ToyRSA.sign satoshi
                   (collectInputs (blocks fresh) (address satoshi))
                   [mkTransactionOutput "bob" 10;
                    mkTransactionOutput (address satoshi) (Z.abs (25 - 10))]))
    = map Some outs /\
    Transaction_verify ToyRSA.verify
      (Transaction_new ToyRSA.sign satoshi
         (collectInputs (blocks fresh) (address satoshi))
         [mkTransactionOutput "bob" 10;
          mkTransactionOutput (address satoshi) (Z.abs (25 - 10))])
    = Ok (10 + Z.abs (25 - 10) <=? sumZ (map amount outs)).
Proof.
  assert (Hsafe : safe_amounts (all_transactions (blocks fresh)))
    by (vm_compute; discriminate).
  split; [exact Hsafe|].
  destruct (submitted_transaction_verification ToyRSA.sign ToyRSA.verify fresh satoshi
              "bob" 10 25)
    as [_ [outs [Hm [_ Hv]]]].
  - reflexivity.
  - exact Hsafe.
  - vm_compute. discriminate.
  - intros message. unfold ToyRSA.verify, ToyRSA.sign, satoshi, ToyRSA.wallet_of.
    cbn [address privateKey]. now rewrite String.eqb_refl.
  - exists outs. split; [exact Hm | exact Hv].
Defined.

(* ================================================================== *)
(** ** When verification raises *)

(** X18: [Transaction.verify] raises, instead of answering, exactly when
    the transaction has no wallet, or one of its inputs points at no
    output, or the verifier raises on the address of its wallet.  So it
    raises on every coinbase transaction: only the coinbase the
    constructor of [Block] prepends escapes verification, and a coinbase
    transaction found in the pool makes [createBlock] raise and leave the
    ledger as it is. *)
Theorem Transaction_verify_raises_iff
        (rsa_verify : string -> string -> Buffer -> result bool) :
  (forall t,
      (exists e, Transaction_verify rsa_verify t = Throw e) <->
      (wallet t = None \/
       (exists txin, In txin (inputs t) /\ parentOutput txin = None) \/
       (exists w e, wallet t = Some w /\
                    rsa_verify (address w) (Transaction_message t) (signature t)
                    = Throw e))) /\
  (forall recipient amt,
      Transaction_verify rsa_verify (GenesisTransaction recipient amt)
      = Throw "TypeError") /\
  (forall fuel bc miner recipient amt,
      In (GenesisTransaction recipient amt) (transactionPool bc) ->
      exists e, createBlock rsa_verify fuel bc miner = Some (Throw e, bc)).
Proof.
  split; [|split].
  - intros t. split.
    + intros [e He]. destruct (wallet t) as [w|] eqn:Ew; [|now left]. right.
      destruct (resolvable_or_unresolved t) as [Hres|Hun]; [|now left]. right.
      rewrite (Transaction_verify_eq rsa_verify t w (resolved t) Ew (resolvable_outs t Hres))
        in He.
      destruct (rsa_verify (address w) (Transaction_message t) (signature t))
        as [sig|e'] eqn:Es; [discriminate He|].
      exists w, e'. split; [reflexivity | exact Es].
    + intros H. destruct (Transaction_verify rsa_verify t) as [b|e] eqn:Ev; [|eauto].
      exfalso. destruct H as [Hw|[Hun|Hsig]].
      * unfold Transaction_verify in Ev.
        destruct (every _ (inputs t)) as [same|e]; [|discriminate Ev].
        cbn [bind] in Ev. rewrite Hw in Ev. discriminate Ev.
      * pose proof (Transaction_verify_Ok_resolvable rsa_verify t b Ev) as Hres.
        destruct Hun as [txin [Hin Hn]]. elim (Hres txin Hin). exact Hn.
      * destruct Hsig as [w [e [Hw Hs]]]. unfold Transaction_verify in Ev.
        destruct (every _ (inputs t)) as [same|e0]; [|discriminate Ev].
        cbn [bind] in Ev. rewrite Hw in Ev. cbn [defined bind] in Ev.
        unfold verifySignature in Ev. rewrite Hs in Ev. discriminate Ev.
  - intros recipient amt. reflexivity.
  - intros fuel bc miner recipient amt Hin.
    apply (createBlock_rejects rsa_verify fuel bc miner (GenesisTransaction recipient amt) Hin).
    discriminate.
Qed.

Lemma Transaction_verify_raises_iff_witness :
  (exists e,
      createBlock ToyRSA.verify 64
        (addToTransactionPool fresh (GenesisTransaction "bob" 1000)) "A"
      = Some (Throw e, addToTransactionPool fresh (GenesisTransaction "bob" 1000))) /\
  (exists e,
      Transaction_verify ToyRSA.verify
        (Transaction_new ToyRSA.sign (ToyRSA.wallet_of "not a key") [] []) = Throw e).
Proof.
  destruct (Transaction_verify_raises_iff ToyRSA.verify) as [Hiff [_ Hpool]].
  split.
  - apply (Hpool 64%nat (addToTransactionPool fresh (GenesisTransaction "bob" 1000))
             "A" "bob" 1000).
    left. reflexivity.
  - apply Hiff. right. right.
    exists (ToyRSA.wallet_of "not a key"), "InvalidAsn1Error".
    split; [reflexivity | vm_compute; reflexivity].
Defined.

(* ================================================================== *)
(** ** Submitting twice *)




(* ================================================================== *)
(** ** What the constructor can do *)

(** X20: the constructor of [Blockchain] raises nothing but "Invalid
    blockchain!", and when it returns, the chain it holds passes
    [Blockchain.verify] and the pool is what reading the pool file gave,
    nothing when that file is missing or cannot be read.  A missing chain
    file never makes it raise, whatever the pool file, and yields the
    genesis block alone; a chain file that exists and cannot be read
    always does. *)
Theorem Blockchain_new_outcomes
        (chain_file : File (list Block)) (txpool_file : File (list Transaction)) :
  (forall e, Blockchain_new chain_file txpool_file = Throw e ->
             e = "Invalid blockchain!") /\
  (forall bc, Blockchain_new chain_file txpool_file = Ok bc ->
              verify (blocks bc) = true /\
              transactionPool bc = match txpool_file with
                                   | Stored txpool => txpool
                                   | _ => []
                                   end) /\
  (chain_file = Missing ->
   exists bc, Blockchain_new chain_file txpool_file = Ok bc /\
              blocks bc = [GENESIS_BLOCK]) /\
  (chain_file = Unreadable ->
   Blockchain_new chain_file txpool_file = Throw "Invalid blockchain!").
Proof.
  assert (Hg : verify [GENESIS_BLOCK] = true) by (vm_compute; reflexivity).
  unfold Blockchain_new, load. cbv zeta.
  destruct chain_file as [| |chain].
  - rewrite Hg. cbn [bind]. split; [|split; [|split]].
    + intros e He. discriminate He.
    + intros bc Hbc. injection Hbc as <-. cbn [blocks transactionPool].
      split; [exact Hg|]. destruct txpool_file; reflexivity.
    + intros _. eexists. split; reflexivity.
    + intros H. discriminate H.
  - cbn [bind]. split; [|split; [|split]].
    + intros e He. injection He as <-. reflexivity.
    + intros bc Hbc. discriminate Hbc.
    + intros H. discriminate H.
    + intros _. reflexivity.
  - destruct (verify chain) eqn:Hv; cbn [bind]; (split; [|split; [|split]]).
    + intros e He. discriminate He.
    + intros bc Hbc. injection Hbc as <-. cbn [blocks transactionPool].
      split; [exact Hv|]. destruct txpool_file; reflexivity.
    + intros H. discriminate H.
    + intros H. discriminate H.
    + intros e He. injection He as <-. reflexivity.
    + intros bc Hbc. discriminate Hbc.
    + intros H. discriminate H.
    + intros H. discriminate H.
Qed.
